(** * The task queue of [backend/app/utils/queue_manager.py]

    A shallow embedding of [QueueTask], [QueueManager] and the worker loop
    [_process_queue] / [_execute_task], together with the status route of
    [backend/app/routers/queue.py].

    The program runs on one asyncio event loop.  Code between two [await]s is
    atomic, so a coroutine is modelled by the point at which it is suspended
    and the event loop by the choice of the coroutine it resumes next. *)

From Stdlib Require Import ZArith String Bool Lia.
From Stdlib Require Import Floats.SpecFloat.
From stdpp Require Import base option list gmap strings.

Local Open Scope string_scope.
Local Open Scope list_scope.
Local Open Scope Z_scope.

(** ** Python values, exceptions and floats *)

(** The values the queue stores without looking inside: task arguments and
    task results.  [PyNone] is Python's [None]. *)
Inductive PyVal : Type :=
  | PyNone
  | PyInt (n : Z)
  | PyStr (s : string).

#[global] Instance PyVal_eq_dec : EqDecision PyVal.
Proof. solve_decision. Defined.

(** Exceptions raised by the modelled code itself. *)
Inductive PyExc : Type :=
  | ZeroDivisionError
  | ValueError
  | HTTPException (status_code : Z).

Inductive PyResult (A : Type) : Type :=
  | Return (a : A)
  | Raise (exc : PyExc).
Arguments Return {A} a.
Arguments Raise {A} exc.

(** Python's [float] is IEEE 754 binary64: 53 bits of precision, exponents
    below 1024, round to nearest even. *)
Definition pyfloat : Type := spec_float.
Definition float_prec : Z := 53.
Definition float_emax : Z := 1024.

(** A float literal with an integral value, such as [50.0]. *)
Definition float_lit (n : Z) : pyfloat :=
  binary_normalize float_prec float_emax n 0 false.

Definition float_add (x y : pyfloat) : pyfloat := SFadd float_prec float_emax x y.
Definition float_mul (x y : pyfloat) : pyfloat := SFmul float_prec float_emax x y.

(** An [int] as an exact (unrounded) significand with exponent 0. *)
Definition int_exact (a : Z) : spec_float :=
  match a with
  | Z0 => S754_zero false
  | Zpos p => S754_finite false p 0
  | Zneg p => S754_finite true p 0
  end.

(** [a / b] on two [int]s: [ZeroDivisionError] for a zero divisor, otherwise
    the exact quotient rounded once to binary64.  (CPython raises
    [OverflowError] where the quotient leaves the binary64 range; the division
    below yields an infinity there.) *)
Definition int_truediv (a b : Z) : PyResult pyfloat :=
  if decide (b = 0) then Raise ZeroDivisionError
  else Return (SFdiv float_prec float_emax (int_exact a) (int_exact b)).

(** ** [TaskStatus] and [QueueTask] *)

Inductive TaskStatus : Type :=
  | PENDING
  | RUNNING
  | COMPLETED
  | FAILED
  | RETRYING.

#[global] Instance TaskStatus_eq_dec : EqDecision TaskStatus.
Proof. solve_decision. Defined.

(** [TaskStatus.value] *)
Definition TaskStatus_value (s : TaskStatus) : string :=
  match s with
  | PENDING => "pending"
  | RUNNING => "running"
  | COMPLETED => "completed"
  | FAILED => "failed"
  | RETRYING => "retrying"
  end.

(** What one invocation of a task's callable does: it returns a value, it
    raises an [Exception] whose [str()] is [description], or it raises a
    [BaseException] that is no [Exception].  That is
    [asyncio.CancelledError] since Python 3.8 (an await inside the callable
    was cancelled, or the callable raised it itself) and any exception
    class of the callable's own derived from [BaseException]; for the
    worker they are alike, no [except Exception] catches them.
    [SystemExit] and [KeyboardInterrupt] moreover stop the event loop. *)
Inductive Outcome : Type :=
  | Returns (v : PyVal)
  | Raises (description : string)
  | Cancelled.

(** A callable is opaque to the queue and may keep state of its own: applied
    to the stored arguments, it is the sequence of the outcomes of its
    successive invocations, the number being how many invocations came
    before. *)
Definition Callable : Type :=
  list PyVal → list (string * PyVal) → nat → Outcome.

(** The callable as it stands after one more invocation. *)
Definition advance (f : Callable) : Callable := λ a k n, f a k (S n).

(** Timestamps ([datetime.now()]) are instants on an integer clock. *)
Record QueueTask : Type := mkQueueTask {
  id : string;
  name : string;
  func : Callable;
  args : list PyVal;
  kwargs : list (string * PyVal);
  status : TaskStatus;
  retry_count : Z;
  max_retries : Z;
  retry_delay : Z;
  result : PyVal;
  error : option string;
  created_at : option Z;
  started_at : option Z;
  completed_at : option Z
}.

Definition set_func (v : Callable) (t : QueueTask) : QueueTask :=
  mkQueueTask (id t) (name t) v (args t) (kwargs t) (status t)
    (retry_count t) (max_retries t) (retry_delay t) (result t) (error t)
    (created_at t) (started_at t) (completed_at t).
Definition set_status (v : TaskStatus) (t : QueueTask) : QueueTask :=
  mkQueueTask (id t) (name t) (func t) (args t) (kwargs t) v
    (retry_count t) (max_retries t) (retry_delay t) (result t) (error t)
    (created_at t) (started_at t) (completed_at t).
Definition set_retry_count (v : Z) (t : QueueTask) : QueueTask :=
  mkQueueTask (id t) (name t) (func t) (args t) (kwargs t) (status t)
    v (max_retries t) (retry_delay t) (result t) (error t)
    (created_at t) (started_at t) (completed_at t).
Definition set_result (v : PyVal) (t : QueueTask) : QueueTask :=
  mkQueueTask (id t) (name t) (func t) (args t) (kwargs t) (status t)
    (retry_count t) (max_retries t) (retry_delay t) v (error t)
    (created_at t) (started_at t) (completed_at t).
Definition set_error (v : option string) (t : QueueTask) : QueueTask :=
  mkQueueTask (id t) (name t) (func t) (args t) (kwargs t) (status t)
    (retry_count t) (max_retries t) (retry_delay t) (result t) v
    (created_at t) (started_at t) (completed_at t).
Definition set_started_at (v : option Z) (t : QueueTask) : QueueTask :=
  mkQueueTask (id t) (name t) (func t) (args t) (kwargs t) (status t)
    (retry_count t) (max_retries t) (retry_delay t) (result t) (error t)
    (created_at t) v (completed_at t).
Definition set_completed_at (v : option Z) (t : QueueTask) : QueueTask :=
  mkQueueTask (id t) (name t) (func t) (args t) (kwargs t) (status t)
    (retry_count t) (max_retries t) (retry_delay t) (result t) (error t)
    (created_at t) (started_at t) v.

(** The dataclass constructor as [add_task] calls it: the keyword arguments
    given, the declared defaults for the rest, and [__post_init__] stamping
    [created_at]. *)
Definition new_QueueTask (task_id name : string) (func : Callable)
    (args : list PyVal) (kwargs : list (string * PyVal))
    (max_retries retry_delay : Z) (now : Z) : QueueTask :=
  {| id := task_id; name := name; func := func; args := args;
     kwargs := kwargs; status := PENDING; retry_count := 0;
     max_retries := max_retries; retry_delay := retry_delay;
     result := PyNone; error := None;
     created_at := Some now; started_at := None; completed_at := None |}.

(** ** [QueueManager._calculate_progress] *)

Definition _calculate_progress (task : QueueTask) : PyResult pyfloat :=
  if decide (status task = COMPLETED) then Return (float_lit 100)
  else if decide (status task = FAILED) then Return (float_lit 0)
  else if decide (status task = RETRYING) then
    match int_truediv (retry_count task) (max_retries task) with
    | Return q => Return (float_add (float_lit 50) (float_mul q (float_lit 30)))
    | Raise e => Raise e
    end
  else if decide (status task = RUNNING) then Return (float_lit 50)
  else if decide (status task = PENDING) then Return (float_lit 0)
  else Return (float_lit 0).

(** ** [QueueManager._execute_task], cut at its suspension points *)

(** From the entry of [_execute_task] to the call of the callable. *)
Definition execute_begin (now : Z) (task : QueueTask) : QueueTask :=
  set_started_at (Some now) (set_status RUNNING task).

(** [task.func( *task.args, **task.kwargs )]: the outcome of this invocation
    and the task with its callable one invocation further. *)
Definition call_func (task : QueueTask) : Outcome * QueueTask :=
  (func task (args task) (kwargs task) 0%nat, set_func (advance (func task)) task).

(** How [_execute_task] goes on once the callable has returned or raised:
    it returns to [_process_queue]; it sleeps and then puts the task back;
    or the exception, caught by no [except Exception], leaves
    [_execute_task] and [_process_queue] alike. *)
Inductive AfterCall : Type :=
  | BackToLoop
  | SleepThenPut
  | Propagate.

(** From the moment the callable returns or raises up to the next suspension
    point or the end of [_execute_task]. *)
Definition execute_end (now : Z) (task : QueueTask) : QueueTask * AfterCall :=
  match call_func task with
  | (Returns v, task) =>
      let task := set_result v task in
      let task := set_status COMPLETED task in
      let task := set_completed_at (Some now) task in
      (task, BackToLoop)
  | (Raises error_msg, task) =>
      let task := set_error (Some error_msg) task in
      let task := set_retry_count (retry_count task + 1) task in
      if decide (retry_count task < max_retries task) then
        (set_status RETRYING task, SleepThenPut)
      else
        let task := set_status FAILED task in
        let task := set_completed_at (Some now) task in
        (task, BackToLoop)
  | (Cancelled, task) => (task, Propagate)
  end.

(** ** The [asyncio.Queue] held in [QueueManager._queue] *)

(** The queue holds references to task objects (see [heap] below), oldest
    first, and counts the [put]s not yet matched by a [task_done]. *)
Record AsyncQueue : Type := mkAsyncQueue {
  items : list nat;
  unfinished_tasks : Z
}.

Definition queue_put (r : nat) (q : AsyncQueue) : AsyncQueue :=
  {| items := items q ++ [r]; unfinished_tasks := unfinished_tasks q + 1 |}.

Definition queue_task_done (q : AsyncQueue) : PyResult AsyncQueue :=
  if decide (unfinished_tasks q ≤ 0) then Raise ValueError
  else Return {| items := items q; unfinished_tasks := unfinished_tasks q - 1 |}.

(** ** [QueueManager] and the world around it *)

(** [tasks] maps an identifier to a reference to its task object;
    [_processing_task] refers to a coroutine of the event loop. *)
Record QueueManager : Type := mkQueueManager {
  tasks : gmap string nat;
  running : bool;
  _queue : AsyncQueue;
  _processing_task : option nat
}.

(** Where a coroutine running [_process_queue] is suspended. *)
Inductive Coroutine : Type :=
  | Created                                (* made by [create_task], not yet run *)
  | AwaitGet                               (* in [wait_for(self._queue.get(), 1.0)] *)
  | AwaitFunc (task : nat)                 (* in the task's callable *)
  | AwaitSleep (task : nat) (delay : Z)    (* in [asyncio.sleep(task.retry_delay)] *)
  | Finished.                              (* returned or cancelled *)

#[global] Instance Coroutine_eq_dec : EqDecision Coroutine.
Proof. solve_decision. Defined.

(** The process: the [QueueTask] objects by reference, the global
    [queue_manager], and the event loop, which holds the coroutines made from
    [_process_queue] and the [self._queue.put(task)] coroutines that
    [add_task] made and that have not run yet, oldest first. *)
Record World : Type := mkWorld {
  heap : list QueueTask;
  queue_manager : QueueManager;
  loop_tasks : list Coroutine;
  ready_puts : list nat
}.

Definition set_heap (h : list QueueTask) (w : World) : World :=
  mkWorld h (queue_manager w) (loop_tasks w) (ready_puts w).
Definition set_manager (m : QueueManager) (w : World) : World :=
  mkWorld (heap w) m (loop_tasks w) (ready_puts w).
Definition set_loop_tasks (l : list Coroutine) (w : World) : World :=
  mkWorld (heap w) (queue_manager w) l (ready_puts w).
Definition set_ready_puts (l : list nat) (w : World) : World :=
  mkWorld (heap w) (queue_manager w) (loop_tasks w) l.

Definition set_tasks (v : gmap string nat) (m : QueueManager) : QueueManager :=
  mkQueueManager v (running m) (_queue m) (_processing_task m).
Definition set_running (v : bool) (m : QueueManager) : QueueManager :=
  mkQueueManager (tasks m) v (_queue m) (_processing_task m).
Definition set_queue (v : AsyncQueue) (m : QueueManager) : QueueManager :=
  mkQueueManager (tasks m) (running m) v (_processing_task m).
Definition set_processing_task (v : option nat) (m : QueueManager) : QueueManager :=
  mkQueueManager (tasks m) (running m) (_queue m) v.

Definition set_coroutine (c : nat) (pc : Coroutine) (w : World) : World :=
  set_loop_tasks (<[c := pc]> (loop_tasks w)) w.

(** [QueueManager.__init__], in a process that has done nothing yet. *)
Definition init : World :=
  {| heap := [];
     queue_manager :=
       {| tasks := ∅; running := false;
          _queue := {| items := []; unfinished_tasks := 0 |};
          _processing_task := None |};
     loop_tasks := [];
     ready_puts := [] |}.

(** [QueueManager.start] *)
Definition start (w : World) : World :=
  let m := queue_manager w in
  if running m then w
  else
    let c := length (loop_tasks w) in
    set_manager (set_processing_task (Some c) (set_running true m))
      (set_loop_tasks (loop_tasks w ++ [Created]) w).

(** [QueueManager.stop], from its first line to the return of its [await],
    when the cancellation it requests is delivered.  [cancel()] has
    [CancelledError] raised in the coroutine at the [await] where it is
    suspended; neither [except Exception] clause catches it, so the
    coroutine ends there, and [stop] has awaited that end when it returns.
    A finished coroutine ignores the cancellation.  Two things can keep the
    cancellation from ending the worker, and neither is part of this
    function: a callable that catches the [CancelledError] raised inside
    it, and, up to CPython 3.11, [wait_for] returning the item instead of
    raising when the cancellation meets a [get] that has just completed.
    The second is [stop_swallowed] below; [no_item_in_flight] says that the
    world is not in that case. *)
Definition stop (w : World) : World :=
  let w := set_manager (set_running false (queue_manager w)) w in
  match _processing_task (queue_manager w) with
  | Some c => set_coroutine c Finished w
  | None => w
  end.

(** [QueueManager.add_task].  [task_id] is the text of [uuid.uuid4()] and
    [now] the clock read by [__post_init__]; both come from outside. *)
Definition add_task (task_id : string) (now : Z) (name : string)
    (func : Callable) (args : list PyVal) (kwargs : list (string * PyVal))
    (max_retries retry_delay : Z) (w : World) : string * World :=
  let task := new_QueueTask task_id name func args kwargs max_retries retry_delay now in
  let r := length (heap w) in
  let m := queue_manager w in
  (task_id,
   {| heap := heap w ++ [task];
      queue_manager := set_tasks (<[task_id := r]> (tasks m)) m;
      loop_tasks := loop_tasks w;
      ready_puts := ready_puts w ++ [r] |}).

(** The event loop runs the oldest pending [self._queue.put(task)]. *)
Definition run_put (w : World) : option World :=
  match ready_puts w with
  | [] => None
  | r :: rest =>
      let m := queue_manager w in
      Some (set_ready_puts rest (set_manager (set_queue (queue_put r (_queue m)) m) w))
  end.

(** ** [QueueManager._process_queue] *)

(** The test [while self.running] at the head of the loop, followed by the
    suspension in [wait_for] when it holds. *)
Definition loop_head (c : nat) (w : World) : World :=
  if running (queue_manager w) then set_coroutine c AwaitGet w
  else set_coroutine c Finished w.

(** The rest of an iteration once [_execute_task] has returned:
    [self._queue.task_done()], whose [ValueError] the clause
    [except Exception] logs and drops. *)
Definition after_execute (w : World) : World :=
  let m := queue_manager w in
  match queue_task_done (_queue m) with
  | Return q => set_manager (set_queue q m) w
  | Raise _ => w
  end.

(** The event loop resumes coroutine [c], which runs to its next suspension
    point; [now] is the clock it reads on the way. *)
Definition resume (c : nat) (now : Z) (w : World) : option World :=
  match loop_tasks w !! c with
  | Some Created => Some (loop_head c w)
  | Some AwaitGet =>
      let m := queue_manager w in
      match items (_queue m) with
      | [] => Some (loop_head c w)          (* TimeoutError: continue *)
      | r :: rest =>
          match heap w !! r with
          | Some task =>
              let q := {| items := rest; unfinished_tasks := unfinished_tasks (_queue m) |} in
              Some (set_coroutine c (AwaitFunc r)
                      (set_manager (set_queue q m)
                         (set_heap (<[r := execute_begin now task]> (heap w)) w)))
          | None => None
          end
      end
  | Some (AwaitFunc r) =>
      match heap w !! r with
      | Some task =>
          let '(task', next) := execute_end now task in
          let w := set_heap (<[r := task']> (heap w)) w in
          match next with
          | SleepThenPut => Some (set_coroutine c (AwaitSleep r (retry_delay task')) w)
          | BackToLoop => Some (loop_head c (after_execute w))
          | Propagate => Some (set_coroutine c Finished w)
          end
      | None => None
      end
  | Some (AwaitSleep r _) =>
      let m := queue_manager w in
      let w := set_manager (set_queue (queue_put r (_queue m)) m) w in
      Some (loop_head c (after_execute w))
  | Some Finished | None => None
  end.

(** ** [QueueManager.get_task_status] and its route *)

Module StatusDict.
(** The dict built by [get_task_status]; timestamps stand for their
    [isoformat()] text. *)
Record t : Type := mk {
  id : string;
  name : string;
  status : string;
  retry_count : Z;
  max_retries : Z;
  progress : pyfloat;
  created_at : option Z;
  started_at : option Z;
  completed_at : option Z;
  error : option string
}.
End StatusDict.

(** [self.tasks.get(task_id)] followed through the reference. *)
Definition tasks_get (task_id : string) (w : World) : option QueueTask :=
  r ← tasks (queue_manager w) !! task_id; heap w !! r.

(** A [QueueTask] object is truthy, so [if not task] sees only [None]. *)
Definition get_task_status (task_id : string) (w : World)
    : PyResult (option StatusDict.t) * World :=
  match tasks_get task_id w with
  | None => (Return None, w)
  | Some task =>
      match _calculate_progress task with
      | Raise e => (Raise e, w)
      | Return p =>
          (Return (Some
             {| StatusDict.id := id task;
                StatusDict.name := name task;
                StatusDict.status := TaskStatus_value (status task);
                StatusDict.retry_count := retry_count task;
                StatusDict.max_retries := max_retries task;
                StatusDict.progress := p;
                StatusDict.created_at := created_at task;
                StatusDict.started_at := started_at task;
                StatusDict.completed_at := completed_at task;
                StatusDict.error := error task |}), w)
      end
  end.

Inductive HttpResponse : Type :=
  | Http200 (body : StatusDict.t)
  | HttpError (status_code : Z).

(** [GET /api/queue/status/{task_id}].  The [HTTPException(404)] is raised
    inside the [try] block whose [except Exception] turns every exception
    into [HTTPException(500)]. *)
Definition route_get_task_status (task_id : string) (w : World)
    : HttpResponse * World :=
  let '(r, w) := get_task_status task_id w in
  let body : PyResult StatusDict.t :=
    match r with
    | Return (Some status) => Return status
    | Return None => Raise (HTTPException 404)
    | Raise e => Raise e
    end in
  match body with
  | Return status => (Http200 status, w)
  | Raise _ => (HttpError 500, w)
  end.

(** ** Runs of the system *)

Inductive Event : Type :=
  | AddTask (task_id : string) (now : Z) (name : string) (func : Callable)
      (args : list PyVal) (kwargs : list (string * PyVal))
      (max_retries retry_delay : Z)
  | RunPut
  | Start
  | Stop
  | Resume (c : nat) (now : Z).

(** One event; [None] when the event loop cannot take it in this world. *)
Definition step (ev : Event) (w : World) : option World :=
  match ev with
  | AddTask task_id now name func args kwargs max_retries retry_delay =>
      Some (add_task task_id now name func args kwargs max_retries retry_delay w).2
  | RunPut => run_put w
  | Start => Some (start w)
  | Stop => Some (stop w)
  | Resume c now => resume c now w
  end.

Fixpoint run (evs : list Event) (w : World) : option World :=
  match evs with
  | [] => Some w
  | ev :: evs => w' ← step ev w; run evs w'
  end.

(** The worlds a fresh manager gets to, every cancellation requested by
    [stop] being delivered. *)
Definition reachable (w : World) : Prop := ∃ evs, run evs init = Some w.

(** ** Invariants *)

(** What holds of every task object, by status. *)
Definition task_ok (t : QueueTask) : Prop :=
  match status t with
  | PENDING => retry_count t = 0 ∧ result t = PyNone
  | RUNNING =>
      (retry_count t = 0 ∨ 0 < retry_count t < max_retries t) ∧ result t = PyNone
  | COMPLETED => retry_count t = 0 ∨ 0 < retry_count t < max_retries t
  | RETRYING => 0 < retry_count t < max_retries t ∧ result t = PyNone
  | FAILED => retry_count t = Z.max (max_retries t) 1 ∧ result t = PyNone
  end ∧ (error t = None ↔ retry_count t = 0).

(** What one event can do to a task object that exists already: nothing,
    start an attempt on a task taken from the queue, or end the attempt of
    the task being run. *)
Inductive task_step (t : QueueTask) : QueueTask → Prop :=
  | task_same : task_step t t
  | task_begin now :
      status t = PENDING ∨ status t = RETRYING →
      task_step t (execute_begin now t)
  | task_end now :
      status t = RUNNING →
      task_step t (execute_end now t).1.

(** The references waiting for the worker: those whose [put] is still to run
    and those in the queue. *)
Definition queued (w : World) : list nat :=
  ready_puts w ++ items (_queue (queue_manager w)).

(** How many items a coroutine has taken from the queue without having
    called [task_done] for them. *)
Definition holding (pc : Coroutine) : Z :=
  match pc with
  | AwaitFunc _ | AwaitSleep _ _ => 1
  | Created | AwaitGet | Finished => 0
  end.

Record world_inv (w : World) : Prop := mk_world_inv {
  inv_task : ∀ r t, heap w !! r = Some t → task_ok t;
  inv_table : ∀ k r, tasks (queue_manager w) !! k = Some r → is_Some (heap w !! r);
  inv_queued : ∀ r, r ∈ queued w →
    ∃ t, heap w !! r = Some t ∧ (status t = PENDING ∨ status t = RETRYING);
  inv_nodup : NoDup (queued w);
  inv_func : ∀ c r, loop_tasks w !! c = Some (AwaitFunc r) →
    ∃ t, heap w !! r = Some t ∧ status t = RUNNING;
  inv_sleep : ∀ c r d, loop_tasks w !! c = Some (AwaitSleep r d) →
    (r ∉ queued w) ∧
    (∃ t, heap w !! r = Some t ∧ status t = RETRYING ∧ d = retry_delay t);
  inv_live : ∀ c pc, loop_tasks w !! c = Some pc → pc ≠ Finished →
    running (queue_manager w) = true ∧ _processing_task (queue_manager w) = Some c;
  inv_unfinished :
    Z.of_nat (length (items (_queue (queue_manager w))))
      ≤ unfinished_tasks (_queue (queue_manager w));
  inv_holding : ∀ c pc, loop_tasks w !! c = Some pc →
    Z.of_nat (length (items (_queue (queue_manager w)))) + holding pc
      ≤ unfinished_tasks (_queue (queue_manager w))
}.

(** What the suspension point a coroutine has just reached asks of the
    world. *)
Definition suspended_ok (w : World) (pc : Coroutine) : Prop :=
  match pc with
  | AwaitFunc r => ∃ t, heap w !! r = Some t ∧ status t = RUNNING
  | AwaitSleep r d =>
      (r ∉ queued w) ∧
      (∃ t, heap w !! r = Some t ∧ status t = RETRYING ∧ d = retry_delay t)
  | Created | AwaitGet | Finished => True
  end.

(** The fields of a task that are set at submission and never written
    again. *)
Definition same_identity (t t' : QueueTask) : Prop :=
  id t' = id t ∧ name t' = name t ∧ args t' = args t ∧ kwargs t' = kwargs t ∧
  max_retries t' = max_retries t ∧ retry_delay t' = retry_delay t ∧
  created_at t' = created_at t.

(** ** The specification's vocabulary *)

(** The edges of the status state machine. *)
Inductive transition : TaskStatus → TaskStatus → Prop :=
  | pending_running : transition PENDING RUNNING
  | running_completed : transition RUNNING COMPLETED
  | running_retrying : transition RUNNING RETRYING
  | running_failed : transition RUNNING FAILED
  | retrying_running : transition RETRYING RUNNING.

Definition terminal (s : TaskStatus) : Prop := s = COMPLETED ∨ s = FAILED.

(** The quotient [a / b] of two [int]s as a float, for [b] other than 0. *)
Definition float_quot (a b : Z) : pyfloat :=
  SFdiv float_prec float_emax (int_exact a) (int_exact b).

(** Progress as the specification words it: a function of the status, with
    [50 + (retry_count / max_retries) × 30] while RETRYING. *)
Definition progress_spec (t : QueueTask) : pyfloat :=
  match status t with
  | COMPLETED => float_lit 100
  | FAILED => float_lit 0
  | RETRYING =>
      float_add (float_lit 50)
        (float_mul (float_quot (retry_count t) (max_retries t)) (float_lit 30))
  | RUNNING => float_lit 50
  | PENDING => float_lit 0
  end.

(** The identifiers [add_task] has returned along a run. *)
Fixpoint issued (evs : list Event) : list string :=
  match evs with
  | [] => []
  | AddTask task_id _ _ _ _ _ _ _ :: evs => task_id :: issued evs
  | _ :: evs => issued evs
  end.

(** What an observer polling a task sees of it: status and retry count. *)
Definition observation (t : QueueTask) : TaskStatus * Z :=
  (status t, retry_count t).

(** The observations of the task at reference [r], one per world of the run
    that starts in [w]. *)
Fixpoint observe (r : nat) (evs : list Event) (w : World) : list (TaskStatus * Z) :=
  match heap w !! r with
  | None => []
  | Some t =>
      observation t ::
      match evs with
      | [] => []
      | ev :: evs =>
          match step ev w with
          | Some w' => observe r evs w'
          | None => []
          end
      end
  end.

(** Runs of equal neighbours collapsed to one element. *)
Fixpoint destutter {A} `{EqDecision A} (l : list A) : list A :=
  match l with
  | [] => []
  | x :: l' =>
      match l' with
      | [] => [x]
      | y :: _ => if decide (x = y) then destutter l' else x :: destutter l'
      end
  end.

(** The life of a task whose two attempts both fail, with [max_retries = 2]. *)
Definition failing_twice : list (TaskStatus * Z) :=
  [(PENDING, 0); (RUNNING, 0); (RETRYING, 1); (RUNNING, 1); (FAILED, 2)].

(** The references an event takes from the head of the queue and those it
    appends to its tail. *)
Definition dequeued_by (ev : Event) (w : World) : list nat :=
  match ev with
  | Resume c _ =>
      match loop_tasks w !! c with
      | Some AwaitGet => take 1 (items (_queue (queue_manager w)))
      | _ => []
      end
  | _ => []
  end.

Definition enqueued_by (ev : Event) (w : World) : list nat :=
  match ev with
  | RunPut => take 1 (ready_puts w)
  | Resume c _ =>
      match loop_tasks w !! c with
      | Some (AwaitSleep r _) => [r]
      | _ => []
      end
  | _ => []
  end.

Fixpoint dequeues (evs : list Event) (w : World) : list nat :=
  match evs with
  | [] => []
  | ev :: evs =>
      match step ev w with
      | Some w' => dequeued_by ev w ++ dequeues evs w'
      | None => []
      end
  end.

Fixpoint enqueues (evs : list Event) (w : World) : list nat :=
  match evs with
  | [] => []
  | ev :: evs =>
      match step ev w with
      | Some w' => enqueued_by ev w ++ enqueues evs w'
      | None => []
      end
  end.

(** The coroutines of [_process_queue] that have not ended. *)
Definition live_loops (w : World) : nat :=
  length (filter (λ pc, pc ≠ Finished) (loop_tasks w)).

(** ** Callables and runs used as examples *)

Definition always_fails (e : string) : Callable := λ _ _ _, Raises e.

Definition fails_once (e : string) (v : PyVal) : Callable :=
  λ _ _ n, match n with O => Raises e | S _ => Returns v end.

(** One task on a fresh manager: submit, let the [put] run, start the worker
    and resume it [n] times. *)
Definition lone_task (f : Callable) (max_retries : Z) (n : nat) : list Event :=
  AddTask "t1" 0 "job" f [] [] max_retries 20 :: RunPut :: Start ::
  map (λ i, Resume 0 (Z.of_nat (S i))) (seq 0 n).

(** The world at the end of a run from [init] ([init] itself if the run
    gets stuck) and the task object at a reference (a blank task if there is
    none). *)
Definition world_after (evs : list Event) : World := default init (run evs init).

Definition task_at (r : nat) (w : World) : QueueTask :=
  default (new_QueueTask "" "" (always_fails "") [] [] 0 0 0) (heap w !! r).

(** A task with [max_retries = 2] whose callable raises at every
    invocation, the [n]th time with text [e n], at any point of its life. *)
Definition doomed (e : nat → string) (t : QueueTask) : Prop :=
  max_retries t = 2 ∧
  (∀ n, func t (args t) (kwargs t) n
          = Raises (e (Z.to_nat (retry_count t) + n)%nat)) ∧
  observation t ∈ failing_twice ∧
  (1 ≤ retry_count t → error t = Some (e (Z.to_nat (retry_count t) - 1)%nat)).

(** A task with [max_retries >= 2] whose callable raises [e] at its first
    invocation and returns [v] at its second, at any point of its life:
    before the first attempt has ended, between the two attempts, and after
    the second. *)
Definition recovering (e : string) (v : PyVal) (t : QueueTask) : Prop :=
  2 ≤ max_retries t ∧
  (((status t = PENDING ∨ status t = RUNNING) ∧ retry_count t = 0 ∧
    func t (args t) (kwargs t) 0%nat = Raises e ∧
    func t (args t) (kwargs t) 1%nat = Returns v) ∨
   ((status t = RETRYING ∨ status t = RUNNING) ∧ retry_count t = 1 ∧
    error t = Some e ∧ func t (args t) (kwargs t) 0%nat = Returns v) ∨
   (status t = COMPLETED ∧ retry_count t = 1 ∧ result t = v ∧ error t = Some e)).

(** Every entry of the table leads to the task object of that identifier. *)
Definition table_ok (w : World) : Prop :=
  ∀ k r t, tasks (queue_manager w) !! k = Some r → heap w !! r = Some t → id t = k.

(** Worlds used as examples: one always-failing task with [max_retries = 2],
    while its first attempt runs, while the worker sleeps before the retry,
    and after the second failure. *)
Definition world_running : World := world_after (lone_task (always_fails "boom") 2 2).
Definition world_sleeping : World := world_after (lone_task (always_fails "boom") 2 3).
Definition world_failed : World := world_after (lone_task (always_fails "boom") 2 6).

(** ** Further vocabulary *)

(** The timestamps a task carries, by status: [created_at] always,
    [started_at] from the first attempt on, [completed_at] once the task is
    COMPLETED or FAILED. *)
Definition stamps_ok (t : QueueTask) : Prop :=
  is_Some (created_at t) ∧
  (started_at t = None ↔ status t = PENDING) ∧
  (is_Some (completed_at t) ↔ terminal (status t)).

(** A task whose callable returns [v] at its first invocation, at any point
    of its life. *)
Definition first_try (v : PyVal) (t : QueueTask) : Prop :=
  retry_count t = 0 ∧ error t = None ∧
  (((status t = PENDING ∨ status t = RUNNING) ∧
    func t (args t) (kwargs t) 0%nat = Returns v) ∨
   (status t = COMPLETED ∧ result t = v)).


(** [QueueManager.get_all_tasks]: [get_task_status] for each key of
    [self.tasks] in turn, the first exception ending the comprehension.
    [keys] is [self.tasks.keys()]; a Python dict lists its keys in the order
    of their first insertion, which the table of this model does not record,
    so the caller supplies it. *)
Fixpoint get_all_tasks (keys : list string) (w : World)
    : PyResult (list (option StatusDict.t)) * World :=
  match keys with
  | [] => (Return [], w)
  | task_id :: keys =>
      match get_task_status task_id w with
      | (Raise e, w) => (Raise e, w)
      | (Return d, w) =>
          match get_all_tasks keys w with
          | (Raise e, w) => (Raise e, w)
          | (Return ds, w) => (Return (d :: ds), w)
          end
      end
  end.

(** What the route over all tasks answers with: the body
    [{"tasks": tasks}] or an error. *)
Inductive HttpReply : Type :=
  | ReplyTasks (tasks : list (option StatusDict.t))
  | ReplyError (status_code : Z).

(** [GET /api/queue/status] *)
Definition route_get_all_tasks_status (keys : list string) (w : World)
    : HttpReply * World :=
  match get_all_tasks keys w with
  | (Return tasks, w) => (ReplyTasks tasks, w)
  | (Raise _, w) => (ReplyError 500, w)
  end.


Definition always_returns (v : PyVal) : Callable := λ _ _ _, Returns v.

(** One task whose callable returns 7 at once, with [max_retries = 0], run to
    the end of its only attempt. *)
Definition world_completed : World :=
  world_after (lone_task (always_returns (PyInt 7)) 0 3).


(** ** Vocabulary for snapshots, submissions and the late stop *)

(** The status snapshot as the specification words it: identifier, name,
    status string, retry count and limit, derived progress, the three
    timestamps and the error text. *)
Definition snapshot (t : QueueTask) : StatusDict.t :=
  {| StatusDict.id := id t;
     StatusDict.name := name t;
     StatusDict.status := TaskStatus_value (status t);
     StatusDict.retry_count := retry_count t;
     StatusDict.max_retries := max_retries t;
     StatusDict.progress := progress_spec t;
     StatusDict.created_at := created_at t;
     StatusDict.started_at := started_at t;
     StatusDict.completed_at := completed_at t;
     StatusDict.error := error t |}.

(** What the latest [add_task] call of a run that returned [task_id] was
    given: name, [max_retries], [retry_delay] and the clock. *)
Fixpoint submitted (evs : list Event) (task_id : string)
    : option (string * Z * Z * Z) :=
  match evs with
  | [] => None
  | ev :: evs =>
      match submitted evs task_id with
      | Some s => Some s
      | None =>
          match ev with
          | AddTask task_id' now nm _ _ _ mr rd =>
              if decide (task_id' = task_id) then Some (nm, mr, rd, now) else None
          | _ => None
          end
      end
  end.


(** [QueueManager.stop] up to its [await] when [wait_for] swallows the
    cancellation (CPython 3.11 and earlier, the worker in [wait_for] with an
    item at hand): the flag is cleared and the worker goes on with the item;
    [stop] returns when the worker has left its loop by itself. *)
Definition stop_swallowed (w : World) : World :=
  set_manager (set_running false (queue_manager w)) w.

Definition always_cancelled : Callable := λ _ _ _, Cancelled.

(** One task whose callable raises [CancelledError], once the worker has
    run it. *)
Definition world_orphaned : World :=
  world_after (lone_task always_cancelled 2 3).

(** A started manager whose worker waits on the empty queue. *)
Definition world_idle : World := world_after [Start; Resume 0 1].

(** Submitted to [world_idle]: a task with [max_retries = 2] whose first
    attempt fails with "first" and whose every later one fails with
    "second". *)
Definition failing_differently : Callable :=
  λ _ _ n, match n with O => Raises "first" | S _ => Raises "second" end.

(** The manager is running, coroutine [c] is suspended at [pc], the queue
    holds [q], and the task object at [r] is [t]. *)
Definition worker_at (w : World) (c : nat) (pc : Coroutine) (q : list nat)
    (r : nat) (t : QueueTask) : Prop :=
  running (queue_manager w) = true ∧
  loop_tasks w !! c = Some pc ∧
  items (_queue (queue_manager w)) = q ∧
  heap w !! r = Some t.

(** Every coroutine of [_process_queue] still alive is the one
    [self._processing_task] refers to: the one [stop] cancels. *)
Definition worker_on_record (w : World) : Prop :=
  ∀ c pc, loop_tasks w !! c = Some pc → pc ≠ Finished →
          _processing_task (queue_manager w) = Some c.

(** A started manager whose worker is in [wait_for] while the task just
    submitted is already in the queue. *)
Definition world_in_flight : World :=
  world_after [Start; Resume 0 1;
               AddTask "t1" 2 "job" (always_returns (PyInt 7)) [] [] 3 20; RunPut].

(** One task whose callable raises [CancelledError], while it is inside the
    callable. *)
Definition world_cancelling : World :=
  world_after (lone_task always_cancelled 2 2).

(** ** Task objects under the worker's two moves *)

Lemma new_QueueTask_ok task_id nm f a k mr rd now :
  task_ok (new_QueueTask task_id nm f a k mr rd now).
Proof. unfold task_ok; simpl. tauto. Qed.

Lemma execute_begin_ok now t :
  task_ok t → status t = PENDING ∨ status t = RETRYING →
  task_ok (execute_begin now t).
Proof.
  unfold task_ok. intros [Hs He] [Hst | Hst]; rewrite Hst in Hs; simpl;
    (split; [|exact He]); split; (lia || tauto).
Qed.

Lemma execute_end_ok now t :
  task_ok t → status t = RUNNING → task_ok (execute_end now t).1.
Proof.
  unfold task_ok, execute_end, call_func. intros [Hs He] Hst.
  rewrite Hst in Hs. destruct Hs as [Hrc Hres].
  destruct (func t (args t) (kwargs t) 0%nat) as [v | msg |]; simpl.
  - split; [exact Hrc | exact He].
  - destruct (decide (retry_count t + 1 < max_retries t)); simpl.
    + split; [split; [lia | exact Hres] |]. split; [discriminate | lia].
    + split; [split; [lia | exact Hres] |]. split; [discriminate | lia].
  - rewrite Hst. split; [split; [exact Hrc | exact Hres] | exact He].
Qed.

Lemma task_step_ok t t' : task_ok t → task_step t t' → task_ok t'.
Proof.
  intros Hok [| now Hst | now Hst];
    eauto using execute_begin_ok, execute_end_ok.
Qed.

(** ** The invariant holds in every reachable world *)

Lemma init_inv : world_inv init.
Proof.
  split; simpl; try done.
  - intros r H. unfold queued in H. simpl in H. by apply elem_of_nil in H.
  - unfold queued. simpl. constructor.
Qed.

(** At most one coroutine is alive. *)
Lemma live_unique w c c' pc pc' :
  world_inv w →
  loop_tasks w !! c = Some pc → pc ≠ Finished →
  loop_tasks w !! c' = Some pc' → pc' ≠ Finished →
  c = c'.
Proof.
  intros Hinv H1 N1 H2 N2.
  destruct (inv_live w Hinv _ _ H1 N1) as [_ E1].
  destruct (inv_live w Hinv _ _ H2 N2) as [_ E2].
  congruence.
Qed.

Lemma queued_valid w r : world_inv w → r ∈ queued w → (r < length (heap w))%nat.
Proof.
  intros Hinv Hin. destruct (inv_queued w Hinv r Hin) as (t & Ht & _).
  by eapply lookup_lt_Some.
Qed.

Lemma add_task_inv task_id now nm f a k mr rd w :
  world_inv w → world_inv (add_task task_id now nm f a k mr rd w).2.
Proof.
  intros Hinv. unfold add_task. simpl.
  assert (Hfresh : length (heap w) ∉ queued w).
  { intros Hin. apply (queued_valid w _ Hinv) in Hin. lia. }
  assert (Hq : ∀ r, r ∈ (ready_puts w ++ [length (heap w)]) ++ items (_queue (queue_manager w))
                 ↔ r = length (heap w) ∨ r ∈ queued w).
  { intros r. unfold queued. rewrite !elem_of_app, list_elem_of_singleton. tauto. }
  split; simpl; unfold queued; simpl.
  - intros r t Hr. apply lookup_snoc_Some in Hr as [[_ Hr] | [_ <-]].
    + by eapply inv_task.
    + apply new_QueueTask_ok.
  - intros key r Hr. apply lookup_insert_Some in Hr as [[_ <-] | [_ Hr]].
    + rewrite lookup_app_r, Nat.sub_diag by lia. by eexists.
    + destruct (inv_table w Hinv _ _ Hr) as [t Ht].
      exists t. by apply lookup_app_l_Some.
  - intros r Hr. apply Hq in Hr as [-> | Hr].
    + eexists. split; [by rewrite lookup_app_r, Nat.sub_diag by lia |]. by left.
    + destruct (inv_queued w Hinv r Hr) as (t & Ht & Hst).
      exists t. split; [by apply lookup_app_l_Some | done].
  - rewrite <- (assoc_L (++)).
    apply NoDup_app. pose proof (inv_nodup w Hinv) as Hnd.
    unfold queued in Hnd, Hfresh. apply NoDup_app in Hnd as (N1 & N2 & N3).
    rewrite elem_of_app in Hfresh.
    split; [done |]. split.
    + intros x Hx Hx'. apply elem_of_cons in Hx' as [-> | Hx']; [tauto | by eapply N2].
    + apply NoDup_cons. split; [tauto | done].
  - intros c r Hc. destruct (inv_func w Hinv c r Hc) as (t & Ht & Hst).
    exists t. split; [by apply lookup_app_l_Some | done].
  - intros c r d Hc. destruct (inv_sleep w Hinv c r d Hc) as (Hnq & t & Ht & Hst).
    split.
    + intros Hin. apply Hq in Hin as [-> | Hin]; [| done].
      apply lookup_lt_Some in Ht. lia.
    + exists t. split; [by apply lookup_app_l_Some | done].
  - apply (inv_live w Hinv).
  - apply (inv_unfinished w Hinv).
  - apply (inv_holding w Hinv).
Qed.

Lemma run_put_inv w w' : world_inv w → run_put w = Some w' → world_inv w'.
Proof.
  intros Hinv. unfold run_put.
  destruct (ready_puts w) as [| r rest] eqn:Hready; [done |].
  intros [= <-].
  assert (Hq : ∀ x, x ∈ rest ++ (items (_queue (queue_manager w)) ++ [r]) ↔ x ∈ queued w).
  { intros x. unfold queued. rewrite Hready.
    rewrite !elem_of_app, list_elem_of_singleton, elem_of_cons. tauto. }
  split; simpl; unfold queued; simpl.
  - apply (inv_task w Hinv).
  - apply (inv_table w Hinv).
  - intros x Hx. apply Hq in Hx. by apply (inv_queued w Hinv).
  - pose proof (inv_nodup w Hinv) as Hnd. unfold queued in Hnd. rewrite Hready in Hnd.
    simpl in Hnd. apply NoDup_cons in Hnd as [Hr Hnd]. rewrite elem_of_app in Hr.
    apply NoDup_app in Hnd as (N1 & N2 & N3).
    apply NoDup_app. split; [done |]. split.
    + intros x Hx Hx'. apply elem_of_app in Hx' as [Hx' | Hx'].
      * by eapply N2.
      * apply list_elem_of_singleton in Hx' as ->. tauto.
    + apply NoDup_app. split; [done |]. split; [| apply NoDup_singleton].
      intros x Hx Hx'. apply list_elem_of_singleton in Hx' as ->. tauto.
  - apply (inv_func w Hinv).
  - intros c x d Hc. destruct (inv_sleep w Hinv c x d Hc) as [Hnq Ht].
    split; [| done]. intros Hin. by apply Hq in Hin.
  - apply (inv_live w Hinv).
  - pose proof (inv_unfinished w Hinv). rewrite length_app. simpl. lia.
  - intros c pc Hc. pose proof (inv_holding w Hinv c pc Hc).
    rewrite length_app. simpl. lia.
Qed.

Lemma others_finished w c pc c0 pc0 :
  world_inv w →
  loop_tasks w !! c = Some pc → pc ≠ Finished →
  c0 ≠ c → loop_tasks w !! c0 = Some pc0 → pc0 = Finished.
Proof.
  intros Hinv Hc Hpc Hne Hc0.
  destruct (decide (pc0 = Finished)) as [| Hlive]; [done |].
  exfalso. apply Hne. by eapply live_unique.
Qed.

(** The invariant after the one live coroutine has moved on. *)
Lemma world_inv_resumed w w' c pc pc' :
  world_inv w →
  loop_tasks w !! c = Some pc → pc ≠ Finished →
  loop_tasks w' = <[c := pc']> (loop_tasks w) →
  tasks (queue_manager w') = tasks (queue_manager w) →
  running (queue_manager w') = running (queue_manager w) →
  _processing_task (queue_manager w') = _processing_task (queue_manager w) →
  (∀ r t, heap w' !! r = Some t → task_ok t) →
  (∀ r, is_Some (heap w !! r) → is_Some (heap w' !! r)) →
  (∀ r, r ∈ queued w' →
     ∃ t, heap w' !! r = Some t ∧ (status t = PENDING ∨ status t = RETRYING)) →
  NoDup (queued w') →
  suspended_ok w' pc' →
  Z.of_nat (length (items (_queue (queue_manager w')))) + holding pc'
    ≤ unfinished_tasks (_queue (queue_manager w')) →
  world_inv w'.
Proof.
  intros Hinv Hc Hpc Hlt Htab Hrun Hproc Htask Hheap Hq Hnd Hsusp Hhold.
  assert (Hlook : ∀ c0 pc0, loop_tasks w' !! c0 = Some pc0 →
            (c0 = c ∧ pc0 = pc') ∨ (c0 ≠ c ∧ pc0 = Finished)).
  { intros c0 pc0. rewrite Hlt, list_lookup_insert_Some.
    intros [(-> & -> & _) | [Hne H0]]; [by left | right].
    split; [done |]. by eapply (others_finished w c pc c0 pc0). }
  assert (Hc' : loop_tasks w' !! c = Some pc').
  { rewrite Hlt. apply list_lookup_insert_eq. by eapply lookup_lt_Some. }
  destruct (inv_live w Hinv c pc Hc Hpc) as [Hr Hp].
  split.
  - exact Htask.
  - intros k r Hk. apply Hheap. rewrite Htab in Hk. by eapply inv_table.
  - exact Hq.
  - exact Hnd.
  - intros c0 r H0. destruct (Hlook _ _ H0) as [[-> E] | [_ E]]; [| done].
    subst pc'. exact Hsusp.
  - intros c0 r d H0. destruct (Hlook _ _ H0) as [[-> E] | [_ E]]; [| done].
    subst pc'. exact Hsusp.
  - intros c0 pc0 H0 Hlive. destruct (Hlook _ _ H0) as [[-> E] | [_ E]]; [| done].
    rewrite Hrun, Hproc. done.
  - pose proof Hhold. destruct pc'; simpl in *; lia.
  - intros c0 pc0 H0. destruct (Hlook _ _ H0) as [[-> ->] | [_ ->]]; [done |].
    destruct pc'; simpl in *; lia.
Qed.

Lemma execute_end_retry now t t' :
  execute_end now t = (t', SleepThenPut) → status t' = RETRYING.
Proof.
  unfold execute_end, call_func.
  destruct (func t (args t) (kwargs t) 0%nat); [intros [= <-]; done | | done].
  simpl. case_decide; intros [= <-]; done.
Qed.

Lemma execute_end_final now t t' :
  execute_end now t = (t', BackToLoop) → status t' = COMPLETED ∨ status t' = FAILED.
Proof.
  unfold execute_end, call_func.
  destruct (func t (args t) (kwargs t) 0%nat); [intros [= <-]; by left | | done].
  simpl. case_decide; intros [= <-]; by right.
Qed.

Lemma execute_end_propagate now t t' :
  execute_end now t = (t', Propagate) → t' = set_func (advance (func t)) t.
Proof.
  unfold execute_end, call_func.
  destruct (func t (args t) (kwargs t) 0%nat); [done | | by intros [= <-]].
  simpl. case_decide; done.
Qed.

Lemma NoDup_middle {A} (l k : list A) x :
  NoDup (l ++ x :: k) → (x ∉ l ++ k) ∧ NoDup (l ++ k).
Proof. rewrite <- Permutation_middle. apply NoDup_cons. Qed.

Lemma NoDup_snoc_app {A} (l k : list A) x :
  x ∉ l ++ k → NoDup (l ++ k) → NoDup (l ++ k ++ [x]).
Proof.
  intros Hx Hnd. rewrite (assoc_L (++)).
  rewrite <- Permutation_cons_append. by apply NoDup_cons.
Qed.

Lemma start_inv w : world_inv w → world_inv (start w).
Proof.
  intros Hinv. unfold start.
  destruct (running (queue_manager w)) eqn:Hrun; [done |].
  assert (Hfin : ∀ c pc, loop_tasks w !! c = Some pc → pc = Finished).
  { intros c pc Hc. destruct (decide (pc = Finished)) as [| Hlive]; [done |].
    destruct (inv_live w Hinv c pc Hc Hlive) as [E _]. congruence. }
  split; simpl; unfold queued; simpl.
  - apply (inv_task w Hinv).
  - apply (inv_table w Hinv).
  - apply (inv_queued w Hinv).
  - apply (inv_nodup w Hinv).
  - intros c r Hc. apply lookup_snoc_Some in Hc as [[_ Hc] | [_ ?]]; [| done].
    by apply Hfin in Hc.
  - intros c r d Hc. apply lookup_snoc_Some in Hc as [[_ Hc] | [_ ?]]; [| done].
    by apply Hfin in Hc.
  - intros c pc Hc Hlive. apply lookup_snoc_Some in Hc as [[_ Hc] | [-> _]].
    + by apply Hfin in Hc.
    + done.
  - apply (inv_unfinished w Hinv).
  - intros c pc Hc. apply lookup_snoc_Some in Hc as [[_ Hc] | [_ <-]].
    + by apply (inv_holding w Hinv c).
    + simpl. pose proof (inv_unfinished w Hinv). lia.
Qed.

Lemma stop_all_finished w c pc :
  world_inv w → loop_tasks (stop w) !! c = Some pc → pc = Finished.
Proof.
  intros Hinv. unfold stop. simpl.
  destruct (_processing_task (queue_manager w)) as [c0 |] eqn:Hproc; simpl.
  - rewrite list_lookup_insert_Some. intros [(_ & <- & _) | [Hne Hc]]; [done |].
    destruct (decide (pc = Finished)) as [| Hlive]; [done |].
    destruct (inv_live w Hinv c pc Hc Hlive) as [_ E]. congruence.
  - intros Hc. destruct (decide (pc = Finished)) as [| Hlive]; [done |].
    destruct (inv_live w Hinv c pc Hc Hlive) as [_ E]. congruence.
Qed.

Lemma stop_fields w :
  heap (stop w) = heap w ∧ ready_puts (stop w) = ready_puts w ∧
  tasks (queue_manager (stop w)) = tasks (queue_manager w) ∧
  _queue (queue_manager (stop w)) = _queue (queue_manager w) ∧
  running (queue_manager (stop w)) = false.
Proof.
  unfold stop. simpl. by destruct (_processing_task (queue_manager w)).
Qed.

Lemma stop_inv w : world_inv w → world_inv (stop w).
Proof.
  intros Hinv. pose proof (stop_all_finished w) as Hfin.
  destruct (stop_fields w) as (Hh & Hrp & Ht & Hq & Hr).
  split; unfold queued; rewrite ?Hh, ?Hrp, ?Ht, ?Hq, ?Hr.
  - apply (inv_task w Hinv).
  - apply (inv_table w Hinv).
  - apply (inv_queued w Hinv).
  - apply (inv_nodup w Hinv).
  - intros c r Hc. by apply Hfin in Hc.
  - intros c r d Hc. by apply Hfin in Hc.
  - intros c pc Hc Hlive. by apply Hfin in Hc.
  - apply (inv_unfinished w Hinv).
  - intros c pc Hc. apply Hfin in Hc; [| done]. subst pc. simpl.
    pose proof (inv_unfinished w Hinv). lia.
Qed.

Lemma loop_head_running c w :
  running (queue_manager w) = true → loop_head c w = set_coroutine c AwaitGet w.
Proof. unfold loop_head. by intros ->. Qed.

Lemma after_execute_done w :
  0 < unfinished_tasks (_queue (queue_manager w)) →
  after_execute w =
    set_manager
      (set_queue {| items := items (_queue (queue_manager w));
                    unfinished_tasks := unfinished_tasks (_queue (queue_manager w)) - 1 |}
         (queue_manager w)) w.
Proof.
  intros H. unfold after_execute, queue_task_done.
  case_decide; [lia | done].
Qed.

Lemma heap_insert_lookup (h : list QueueTask) r t r0 t0 :
  <[r := t]> h !! r0 = Some t0 → (r0 = r ∧ t0 = t) ∨ (r0 ≠ r ∧ h !! r0 = Some t0).
Proof.
  rewrite list_lookup_insert_Some. intros [(-> & -> & _) | [? ?]]; [by left | by right].
Qed.

Lemma resume_inv c now w w' :
  world_inv w → resume c now w = Some w' → world_inv w'.
Proof.
  intros Hinv. unfold resume.
  destruct (loop_tasks w !! c) as [pc |] eqn:Hc; [| done].
  assert (Hidle : ∀ pc, loop_tasks w !! c = Some pc → pc ≠ Finished →
            holding pc = 0 → world_inv (loop_head c w)).
  { intros pc0 Hc0 Hlive Hhold.
    destruct (inv_live w Hinv c pc0 Hc0 Hlive) as [Hrun _].
    rewrite loop_head_running by done.
    eapply (world_inv_resumed w _ c pc0 AwaitGet); try done; simpl.
    - apply (inv_task w Hinv).
    - apply (inv_queued w Hinv).
    - apply (inv_nodup w Hinv).
    - pose proof (inv_unfinished w Hinv). lia. }
  destruct pc as [| | r | r d |].
  - (* Created *)
    intros [= <-]. by eapply Hidle.
  - (* AwaitGet *)
    destruct (items (_queue (queue_manager w))) as [| r rest] eqn:Hitems.
    { intros [= <-]. by eapply Hidle. }
    destruct (heap w !! r) as [task |] eqn:Hr; [| done].
    intros [= <-].
    assert (Hin : r ∈ queued w).
    { unfold queued. rewrite Hitems. apply elem_of_app. right. apply elem_of_cons. by left. }
    destruct (inv_queued w Hinv r Hin) as (t & Ht & Hst).
    assert (t = task) as -> by congruence.
    pose proof (inv_nodup w Hinv) as Hnd. unfold queued in Hnd. rewrite Hitems in Hnd.
    apply NoDup_middle in Hnd as [Hnotin Hnd].
    eapply (world_inv_resumed w _ c AwaitGet (AwaitFunc r)); try done; simpl.
    + intros r0 t0 H0. apply heap_insert_lookup in H0 as [[-> ->] | [_ H0]].
      * apply execute_begin_ok; [by eapply inv_task | done].
      * by eapply inv_task.
    + intros r0. by rewrite list_lookup_insert_is_Some.
    + unfold queued. simpl. intros r0 H0.
      assert (r0 ≠ r) by (intros ->; done).
      rewrite list_lookup_insert_ne by done.
      apply (inv_queued w Hinv). unfold queued. rewrite Hitems.
      apply elem_of_app in H0 as [H0 | H0]; apply elem_of_app; [by left | right].
      apply elem_of_cons. by right.
    + exists (execute_begin now task). split; [| done].
      apply list_lookup_insert_eq. by eapply lookup_lt_Some.
    + pose proof (inv_unfinished w Hinv) as HU. rewrite Hitems in HU. simpl in HU. lia.
  - (* AwaitFunc *)
    destruct (heap w !! r) as [task |] eqn:Hr; [| done].
    destruct (execute_end now task) as [task' retry] eqn:Hend.
    destruct (inv_func w Hinv c r Hc) as (t & Ht & Hst).
    assert (t = task) as -> by congruence.
    assert (Hnq : r ∉ queued w).
    { intros Hin. destruct (inv_queued w Hinv r Hin) as (t & Ht' & Hst').
      assert (t = task) as -> by congruence. destruct Hst'; congruence. }
    assert (Hok : ∀ r0 t0, <[r:=task']> (heap w) !! r0 = Some t0 → task_ok t0).
    { intros r0 t0 H0. apply heap_insert_lookup in H0 as [[-> ->] | [_ H0]].
      - replace task' with (execute_end now task).1 by (by rewrite Hend).
        apply execute_end_ok; [by eapply inv_task | done].
      - by eapply inv_task. }
    assert (Hqd : ∀ r0, r0 ∈ queued w →
              ∃ t, <[r:=task']> (heap w) !! r0 = Some t ∧
                   (status t = PENDING ∨ status t = RETRYING)).
    { intros r0 H0. assert (r0 ≠ r) by (intros ->; done).
      rewrite list_lookup_insert_ne by done. by apply (inv_queued w Hinv). }
    pose proof (inv_holding w Hinv c _ Hc) as Hhold. simpl in Hhold.
    destruct retry.
    + intros [= <-].
      destruct (inv_live w Hinv c _ Hc) as [Hrun _]; [done |].
      rewrite after_execute_done, loop_head_running by (simpl; (done || lia)).
      eapply (world_inv_resumed w _ c (AwaitFunc r) AwaitGet); try done; simpl.
      * intros r0. by rewrite list_lookup_insert_is_Some.
      * apply (inv_nodup w Hinv).
      * lia.
    + intros [= <-].
      eapply (world_inv_resumed w _ c (AwaitFunc r) (AwaitSleep r (retry_delay task')));
        try done; simpl.
      * intros r0. by rewrite list_lookup_insert_is_Some.
      * apply (inv_nodup w Hinv).
      * split; [done |]. exists task'. split_and!; [| by eapply execute_end_retry | done].
        apply list_lookup_insert_eq. by eapply lookup_lt_Some.
    + intros [= <-].
      eapply (world_inv_resumed w _ c (AwaitFunc r) Finished); try done; simpl.
      * intros r0. by rewrite list_lookup_insert_is_Some.
      * apply (inv_nodup w Hinv).
      * lia.
  - (* AwaitSleep *)
    intros [= <-].
    destruct (inv_sleep w Hinv c r d Hc) as (Hnq & t & Ht & Hst & ->).
    pose proof (inv_holding w Hinv c _ Hc) as Hhold. simpl in Hhold.
    destruct (inv_live w Hinv c _ Hc) as [Hrun _]; [done |].
    rewrite after_execute_done, loop_head_running by (simpl; (done || lia)).
    eapply (world_inv_resumed w _ c (AwaitSleep r (retry_delay t)) AwaitGet);
      try done; simpl.
    + apply (inv_task w Hinv).
    + unfold queued. simpl. intros r0 H0.
      rewrite (assoc_L (++)), elem_of_app, list_elem_of_singleton in H0.
      destruct H0 as [H0 | ->]; [by apply (inv_queued w Hinv) |].
      exists t. split; [done | by right].
    + unfold queued. simpl. apply NoDup_snoc_app; [done | apply (inv_nodup w Hinv)].
    + rewrite length_app. simpl. lia.
  - done.
Qed.

Lemma step_inv ev w w' : world_inv w → step ev w = Some w' → world_inv w'.
Proof.
  intros Hinv. destruct ev; simpl.
  - intros [= <-]. by apply add_task_inv.
  - by apply run_put_inv.
  - intros [= <-]. by apply start_inv.
  - intros [= <-]. by apply stop_inv.
  - by apply resume_inv.
Qed.

Lemma run_inv evs w w' : world_inv w → run evs w = Some w' → world_inv w'.
Proof.
  revert w. induction evs as [| ev evs IH]; intros w Hinv; simpl.
  - by intros [= <-].
  - destruct (step ev w) as [w1 |] eqn:Hstep; [| done]. simpl.
    apply IH. by eapply step_inv.
Qed.

Lemma reachable_inv w : reachable w → world_inv w.
Proof. intros [evs Hrun]. eapply run_inv; [apply init_inv | done]. Qed.

(** ** What a step does to one task object *)

Lemma heap_loop_head c w : heap (loop_head c w) = heap w.
Proof. unfold loop_head. by destruct (running (queue_manager w)). Qed.

Lemma heap_after_execute w : heap (after_execute w) = heap w.
Proof.
  unfold after_execute. by destruct (queue_task_done (_queue (queue_manager w))).
Qed.

Lemma step_task ev w w' r t :
  world_inv w → step ev w = Some w' → heap w !! r = Some t →
  ∃ t', heap w' !! r = Some t' ∧ task_step t t'.
Proof.
  intros Hinv Hstep Hr.
  assert (Hsame : heap w' = heap w → ∃ t', heap w' !! r = Some t' ∧ task_step t t').
  { intros ->. exists t. split; [done | constructor]. }
  destruct ev as [task_id now nm f a k mr rd | | | | c now]; simpl in Hstep.
  - injection Hstep as <-. simpl. exists t.
    split; [by apply lookup_app_l_Some | constructor].
  - unfold run_put in Hstep. destruct (ready_puts w); [done |].
    injection Hstep as <-. by apply Hsame.
  - injection Hstep as <-. apply Hsame. unfold start.
    by destruct (running (queue_manager w)).
  - injection Hstep as <-. apply Hsame. apply stop_fields.
  - unfold resume in Hstep.
    destruct (loop_tasks w !! c) as [[| | r0 | r0 d |] |] eqn:Hc; try done.
    + injection Hstep as <-. apply Hsame, heap_loop_head.
    + destruct (items (_queue (queue_manager w))) as [| r0 rest] eqn:Hitems.
      { injection Hstep as <-. apply Hsame, heap_loop_head. }
      destruct (heap w !! r0) as [task |] eqn:Hr0; [| done].
      injection Hstep as <-. simpl.
      destruct (decide (r = r0)) as [-> | Hne].
      * assert (task = t) as -> by congruence.
        exists (execute_begin now t).
        split; [apply list_lookup_insert_eq; by eapply lookup_lt_Some |].
        constructor.
        assert (Hin : r0 ∈ queued w).
        { unfold queued. rewrite Hitems. apply elem_of_app. right.
          apply elem_of_cons. by left. }
        destruct (inv_queued w Hinv r0 Hin) as (t0 & Ht0 & Hst). congruence.
      * exists t. split; [by rewrite list_lookup_insert_ne | constructor].
    + destruct (heap w !! r0) as [task |] eqn:Hr0; [| done].
      destruct (execute_end now task) as [task' retry] eqn:Hend.
      assert (Hh : heap w' = <[r0 := task']> (heap w)).
      { destruct retry; injection Hstep as <-; simpl; [| done | done].
        by rewrite heap_loop_head, heap_after_execute. }
      rewrite Hh.
      destruct (decide (r = r0)) as [-> | Hne].
      * assert (task = t) as -> by congruence.
        exists task'.
        split; [apply list_lookup_insert_eq; by eapply lookup_lt_Some |].
        replace task' with (execute_end now t).1 by (by rewrite Hend).
        constructor.
        destruct (inv_func w Hinv c r0 Hc) as (t0 & Ht0 & Hst). congruence.
      * exists t. split; [by rewrite list_lookup_insert_ne | constructor].
    + injection Hstep as <-. apply Hsame.
      by rewrite heap_loop_head, heap_after_execute.
Qed.

Lemma task_step_identity t t' : task_step t t' → same_identity t t'.
Proof.
  intros [| now _ | now _]; unfold same_identity; [done | done |].
  unfold execute_end, call_func.
  destruct (func t (args t) (kwargs t) 0%nat); simpl; [done | | done].
  case_decide; done.
Qed.

(** Runs never drop a task object and never touch its identity. *)
Lemma run_task evs w w' r t :
  world_inv w → run evs w = Some w' → heap w !! r = Some t →
  ∃ t', heap w' !! r = Some t' ∧ same_identity t t'.
Proof.
  revert w t. induction evs as [| ev evs IH]; intros w t Hinv Hrun Hr; simpl in Hrun.
  - injection Hrun as <-. by exists t.
  - destruct (step ev w) as [w1 |] eqn:Hstep; [| done]. simpl in Hrun.
    destruct (step_task ev w w1 r t Hinv Hstep Hr) as (t1 & Hr1 & Hts).
    destruct (IH w1 t1 (step_inv _ _ _ Hinv Hstep) Hrun Hr1) as (t' & Hr' & Hid).
    exists t'. split; [done |].
    apply task_step_identity in Hts. unfold same_identity in *.
    destruct Hid as (?&?&?&?&?&?&?), Hts as (?&?&?&?&?&?&?).
    split_and!; congruence.
Qed.

Lemma reachable_task_ok w r t : reachable w → heap w !! r = Some t → task_ok t.
Proof. intros Hw Hr. by eapply inv_task; [apply reachable_inv |]. Qed.

Lemma reachable_run evs w w' : reachable w → run evs w = Some w' → reachable w'.
Proof.
  intros [evs0 H0] Hrun. exists (evs0 ++ evs).
  revert H0. generalize init. induction evs0 as [| ev evs0 IH]; intros w0; simpl.
  - by intros [= ->].
  - destruct (step ev w0); [| done]. simpl. apply IH.
Qed.

(** ** Retry counts *)

(** C1 as the specification states it fails: with [max_retries = 0] one
    failed attempt leaves the task FAILED with [retry_count = 1]. *)
Lemma zero_max_retries_overshoots :
  ∃ w t, run (lone_task (always_fails "boom") 0 3) init = Some w ∧
         heap w !! 0%nat = Some t ∧
         0 ≤ max_retries t ∧ status t = FAILED ∧
         ¬ (retry_count t ≤ max_retries t) ∧ retry_count t ≠ max_retries t.
Proof.
  exists (world_after (lone_task (always_fails "boom") 0 3)),
         (task_at 0 (world_after (lone_task (always_fails "boom") 0 3))).
  vm_compute. split_and!; try reflexivity; try discriminate.
  intros H. by apply H.
Qed.

(** C1, amended: in every reachable world and for every task object,
    RETRYING implies [retry_count < max_retries], PENDING implies
    [retry_count = 0], and [retry_count] never exceeds
    [max (max_retries, 1)], which it equals once FAILED; so for
    [max_retries >= 1] it never exceeds [max_retries] and equals it once
    FAILED. *)
Theorem retry_count_bounded w r t :
  reachable w → heap w !! r = Some t →
  (status t = RETRYING → retry_count t < max_retries t) ∧
  (status t = PENDING → retry_count t = 0) ∧
  (status t = FAILED → retry_count t = Z.max (max_retries t) 1) ∧
  0 ≤ retry_count t ≤ Z.max (max_retries t) 1 ∧
  (1 ≤ max_retries t →
   retry_count t ≤ max_retries t ∧
   (status t = FAILED → retry_count t = max_retries t)).
Proof.
  intros Hw Hr. destruct (reachable_task_ok w r t Hw Hr) as [Hs _].
  split_and!.
  - intros Hst. rewrite Hst in Hs. lia.
  - intros Hst. rewrite Hst in Hs. lia.
  - intros Hst. rewrite Hst in Hs. lia.
  - destruct (status t); lia.
  - destruct (status t); lia.
  - intros Hmr. split; [destruct (status t); lia |].
    intros Hst. rewrite Hst in Hs. lia.
Qed.

Lemma retry_count_bounded_witness :
  status (task_at 0 (world_after (lone_task (always_fails "boom") 2 6))) = FAILED ∧
  retry_count (task_at 0 (world_after (lone_task (always_fails "boom") 2 6))) = 2.
Proof.
  assert (Hw : reachable (world_after (lone_task (always_fails "boom") 2 6))).
  { exists (lone_task (always_fails "boom") 2 6). vm_compute. reflexivity. }
  assert (Ht : heap (world_after (lone_task (always_fails "boom") 2 6)) !! 0%nat
               = Some (task_at 0 (world_after (lone_task (always_fails "boom") 2 6)))).
  { vm_compute. reflexivity. }
  destruct (retry_count_bounded _ _ _ Hw Ht) as (_ & _ & _ & _ & H).
  split; [vm_compute; reflexivity |].
  apply H; vm_compute; [discriminate | reflexivity].
Defined.

(** ** Progress *)

Lemma calculate_progress_spec t :
  (status t = RETRYING → max_retries t ≠ 0) →
  _calculate_progress t = Return (progress_spec t).
Proof.
  intros Hmr. unfold _calculate_progress, progress_spec, int_truediv, float_quot.
  destruct (status t) eqn:Hst; simpl; try done.
  case_decide; [by destruct Hmr | done].
Qed.

Lemma retrying_bounds w r t :
  reachable w → heap w !! r = Some t → status t = RETRYING →
  1 ≤ retry_count t < max_retries t.
Proof.
  intros Hw Hr Hst. destruct (reachable_task_ok w r t Hw Hr) as [Hs _].
  rewrite Hst in Hs. lia.
Qed.

Lemma tasks_get_heap task_id w t :
  tasks_get task_id w = Some t → ∃ r, heap w !! r = Some t.
Proof.
  unfold tasks_get. destruct (tasks (queue_manager w) !! task_id) as [r |]; [| done].
  simpl. by exists r.
Qed.

Lemma reachable_progress w r t :
  reachable w → heap w !! r = Some t →
  _calculate_progress t = Return (progress_spec t).
Proof.
  intros Hw Hr. apply calculate_progress_spec. intros Hst.
  pose proof (retrying_bounds w r t Hw Hr Hst). lia.
Qed.

(** C10: in every reachable world the progress of every task object is
    computed without an exception: a RETRYING task has
    [1 <= retry_count < max_retries], so the divisor [max_retries] is not 0. *)
Theorem calculate_progress_total w r t :
  reachable w → heap w !! r = Some t →
  (status t = RETRYING → 1 ≤ retry_count t < max_retries t ∧ max_retries t ≠ 0) ∧
  (∃ p, _calculate_progress t = Return p) ∧
  _calculate_progress t ≠ Raise ZeroDivisionError.
Proof.
  intros Hw Hr.
  assert (Hb : status t = RETRYING → 1 ≤ retry_count t < max_retries t)
    by eauto using retrying_bounds.
  assert (Hp : _calculate_progress t = Return (progress_spec t)).
  { apply calculate_progress_spec. intros Hst. specialize (Hb Hst). lia. }
  split_and!.
  - intros Hst. specialize (Hb Hst). lia.
  - by eexists.
  - by rewrite Hp.
Qed.

(** C5: in every reachable world, the progress that [get_task_status]
    reports for a known task is the piecewise function of its status:
    COMPLETED 100, FAILED 0, RETRYING 50 + (retry_count / max_retries) × 30,
    RUNNING 50, PENDING 0. *)
Theorem progress_is_piecewise w task_id t :
  reachable w → tasks_get task_id w = Some t →
  _calculate_progress t = Return (progress_spec t) ∧
  ∃ d, get_task_status task_id w = (Return (Some d), w) ∧
       StatusDict.progress d = progress_spec t ∧
       StatusDict.status d = TaskStatus_value (status t) ∧
       (status t = COMPLETED → StatusDict.progress d = float_lit 100) ∧
       (status t = FAILED → StatusDict.progress d = float_lit 0) ∧
       (status t = RETRYING →
        StatusDict.progress d =
          float_add (float_lit 50)
            (float_mul (float_quot (retry_count t) (max_retries t)) (float_lit 30))) ∧
       (status t = RUNNING → StatusDict.progress d = float_lit 50) ∧
       (status t = PENDING → StatusDict.progress d = float_lit 0).
Proof.
  intros Hw Hget. destruct (tasks_get_heap _ _ _ Hget) as [r Hr].
  assert (Hp : _calculate_progress t = Return (progress_spec t)).
  { apply calculate_progress_spec. intros Hst.
    pose proof (retrying_bounds w r t Hw Hr Hst). lia. }
  split; [done |].
  unfold get_task_status. rewrite Hget, Hp.
  eexists. split; [reflexivity |]. simpl.
  unfold progress_spec. split_and!; try done; by intros ->.
Qed.

(** ** The status state machine *)

Lemma task_step_transition t t' :
  task_step t t' →
  (status t' = status t ∨ transition (status t) (status t')) ∧
  (terminal (status t) → t' = t).
Proof.
  intros [| now Hst | now Hst].
  - split; [by left | done].
  - split.
    + right. simpl. destruct Hst as [-> | ->]; constructor.
    + intros [H | H]; destruct Hst; congruence.
  - split.
    + rewrite Hst. unfold execute_end, call_func.
      destruct (func t (args t) (kwargs t) 0%nat); simpl.
      * right. constructor.
      * right. case_decide; constructor.
      * by left.
    + intros [H | H]; congruence.
Qed.

Lemma terminal_frozen evs w w' r t :
  world_inv w → run evs w = Some w' → heap w !! r = Some t →
  terminal (status t) → heap w' !! r = Some t.
Proof.
  revert w. induction evs as [| ev evs IH]; intros w Hinv Hrun Hr Hterm; simpl in Hrun.
  - by injection Hrun as <-.
  - destruct (step ev w) as [w1 |] eqn:Hstep; [| done]. simpl in Hrun.
    destruct (step_task ev w w1 r t Hinv Hstep Hr) as (t1 & Hr1 & Hts).
    apply task_step_transition in Hts as [_ Heq].
    specialize (Heq Hterm). subst t1.
    apply (IH w1); [by eapply step_inv | done | done | done].
Qed.

(** C6: the status of a task object changes only along PENDING → RUNNING,
    RUNNING → COMPLETED | RETRYING | FAILED and RETRYING → RUNNING, one edge
    per event at most; a task is submitted PENDING; whenever the worker is
    inside a task's callable the task is RUNNING; and a COMPLETED or FAILED
    task is never changed again. *)
Theorem status_follows_state_machine w :
  reachable w →
  (∀ ev w' r t, step ev w = Some w' → heap w !! r = Some t →
     ∃ t', heap w' !! r = Some t' ∧
           (status t' = status t ∨ transition (status t) (status t'))) ∧
  (∀ task_id now nm f a k mr rd t,
     heap (add_task task_id now nm f a k mr rd w).2 !! length (heap w) = Some t →
     status t = PENDING) ∧
  (∀ c r, loop_tasks w !! c = Some (AwaitFunc r) →
     ∃ t, heap w !! r = Some t ∧ status t = RUNNING) ∧
  (∀ evs w' r t, run evs w = Some w' → heap w !! r = Some t →
     terminal (status t) → heap w' !! r = Some t).
Proof.
  intros Hw. pose proof (reachable_inv w Hw) as Hinv. split_and!.
  - intros ev w' r t Hstep Hr.
    destruct (step_task ev w w' r t Hinv Hstep Hr) as (t' & Hr' & Hts).
    exists t'. split; [done |]. by apply task_step_transition.
  - intros task_id now nm f a k mr rd t. simpl.
    rewrite lookup_app_r, Nat.sub_diag by lia. by intros [= <-].
  - apply (inv_func w Hinv).
  - intros evs w' r t Hrun Hr Hterm. by eapply terminal_frozen.
Qed.

(** ** Results and errors *)

(** C2 as the specification states it fails twice over.  With
    [max_retries = 1] a task whose callable fails once is FAILED and gets no
    second attempt; with [max_retries = 2] it ends COMPLETED while [error]
    still holds the first failure's text. *)
Lemma completed_task_keeps_error :
  (∃ w t, run (lone_task (fails_once "boom" (PyInt 7)) 1 6) init = Some w ∧
          heap w !! 0%nat = Some t ∧ 1 ≤ max_retries t ∧ status t = FAILED) ∧
  (∃ w t, run (lone_task (fails_once "boom" (PyInt 7)) 2 6) init = Some w ∧
          heap w !! 0%nat = Some t ∧ status t = COMPLETED ∧
          error t = Some "boom" ∧ error t ≠ None ∧
          status t ≠ RETRYING ∧ status t ≠ FAILED).
Proof.
  split.
  - exists (world_after (lone_task (fails_once "boom" (PyInt 7)) 1 6)),
           (task_at 0 (world_after (lone_task (fails_once "boom" (PyInt 7)) 1 6))).
    vm_compute. split_and!; try reflexivity; discriminate.
  - exists (world_after (lone_task (fails_once "boom" (PyInt 7)) 2 6)),
           (task_at 0 (world_after (lone_task (fails_once "boom" (PyInt 7)) 2 6))).
    vm_compute. split_and!; try reflexivity; discriminate.
Qed.

Lemma recovering_new task_id nm f a k mr rd now e v :
  2 ≤ mr → f a k 0%nat = Raises e → f a k 1%nat = Returns v →
  recovering e v (new_QueueTask task_id nm f a k mr rd now).
Proof. intros. split; [done |]. left. simpl. eauto. Qed.

Lemma recovering_step e v t t' :
  recovering e v t → task_step t t' → recovering e v t'.
Proof.
  intros [Hmr Hcases] [| now Hst | now Hst]; [done | |].
  - split; [done |].
    destruct Hcases as [(_ & Hrc & Hf0 & Hf1) | [(_ & Hrc & He & Hf0) | (Hc & _)]].
    + left. simpl. eauto.
    + right. left. simpl. eauto.
    + destruct Hst; congruence.
  - unfold execute_end, call_func.
    destruct Hcases as [(_ & Hrc & Hf0 & Hf1) | [(_ & Hrc & He & Hf0) | (Hc & _)]].
    + rewrite Hf0. simpl. rewrite Hrc.
      case_decide; [| lia]. split; [done |]. right. left. simpl. eauto.
    + rewrite Hf0. simpl. split; [done |]. right. right. simpl. eauto.
    + congruence.
Qed.

Lemma recovering_run e v evs w w' r t :
  world_inv w → run evs w = Some w' → heap w !! r = Some t → recovering e v t →
  ∃ t', heap w' !! r = Some t' ∧ recovering e v t'.
Proof.
  revert w t. induction evs as [| ev evs IH]; intros w t Hinv Hrun Hr Hrec; simpl in Hrun.
  - injection Hrun as <-. by exists t.
  - destruct (step ev w) as [w1 |] eqn:Hstep; [| done]. simpl in Hrun.
    destruct (step_task ev w w1 r t Hinv Hstep Hr) as (t1 & Hr1 & Hts).
    apply (IH w1 t1); eauto using step_inv, recovering_step.
Qed.

(** C2, amended.  In every reachable world and for every task object:
    [result] is set only when the status is COMPLETED; [error] is set exactly
    when an attempt has failed ([retry_count >= 1]), which leaves the task
    RETRYING or FAILED, or RUNNING or COMPLETED in an attempt that followed a
    retry.  A task submitted with [max_retries >= 2] whose callable fails
    once and then succeeds is never FAILED, and once COMPLETED holds the
    second attempt's result and still the first failure's text in [error]. *)
Theorem result_and_error_by_status :
  (∀ w r t, reachable w → heap w !! r = Some t →
     (result t ≠ PyNone → status t = COMPLETED) ∧
     (error t ≠ None ↔ 1 ≤ retry_count t) ∧
     (error t ≠ None →
      status t = RETRYING ∨ status t = FAILED ∨
      ((status t = RUNNING ∨ status t = COMPLETED) ∧
       1 ≤ retry_count t < max_retries t))) ∧
  (∀ w0 task_id now nm f a k mr rd e v evs w t,
     reachable w0 → 2 ≤ mr →
     f a k 0%nat = Raises e → f a k 1%nat = Returns v →
     run evs (add_task task_id now nm f a k mr rd w0).2 = Some w →
     heap w !! length (heap w0) = Some t →
     status t ≠ FAILED ∧
     (status t = COMPLETED → result t = v ∧ error t = Some e)).
Proof.
  split.
  - intros w r t Hw Hr. destruct (reachable_task_ok w r t Hw Hr) as [Hs He].
    assert (Herr : error t ≠ None ↔ 1 ≤ retry_count t).
    { split.
      - intros Hne. destruct (decide (retry_count t = 0)) as [H0 | H0].
        + by apply He in H0.
        + destruct (status t); lia.
      - intros Hrc Hnone. apply He in Hnone. lia. }
    split_and!; [| done |].
    + intros Hres. destruct (status t); try done; by destruct Hs.
    + intros Hne. apply Herr in Hne.
      destruct (status t); eauto; try lia.
      * right. right. split; [by left | lia].
      * right. right. split; [by right | lia].
  - intros w0 task_id now nm f a k mr rd e v evs w t Hw0 Hmr Hf0 Hf1 Hrun Hr.
    pose proof (add_task_inv task_id now nm f a k mr rd w0 (reachable_inv w0 Hw0)) as Hinv1.
    assert (Hr1 : heap (add_task task_id now nm f a k mr rd w0).2 !! length (heap w0)
                  = Some (new_QueueTask task_id nm f a k mr rd now)).
    { simpl. by rewrite lookup_app_r, Nat.sub_diag by lia. }
    destruct (recovering_run e v evs _ w _ _ Hinv1 Hrun Hr1
                (recovering_new _ _ _ _ _ _ _ _ _ _ Hmr Hf0 Hf1))
      as (t' & Hr' & [_ Hcases]).
    assert (t' = t) as -> by congruence.
    destruct Hcases as [([-> | ->] & _) | [([-> | ->] & _) | (-> & _ & Hres & Herr)]];
      split; done.
Qed.

Lemma result_and_error_by_status_witness :
  status (task_at 0 (world_after (lone_task (fails_once "boom" (PyInt 7)) 2 6))) = COMPLETED ∧
  result (task_at 0 (world_after (lone_task (fails_once "boom" (PyInt 7)) 2 6))) = PyInt 7 ∧
  error (task_at 0 (world_after (lone_task (fails_once "boom" (PyInt 7)) 2 6))) = Some "boom".
Proof.
  assert (Hst : status (task_at 0 (world_after (lone_task (fails_once "boom" (PyInt 7)) 2 6)))
                = COMPLETED) by (vm_compute; reflexivity).
  split; [exact Hst |].
  refine (proj2 (proj2 result_and_error_by_status init "t1" 0 "job"
            (fails_once "boom" (PyInt 7)) [] [] 2 20 "boom" (PyInt 7)
            (skipn 1 (lone_task (fails_once "boom" (PyInt 7)) 2 6))
            (world_after (lone_task (fails_once "boom" (PyInt 7)) 2 6))
            (task_at 0 (world_after (lone_task (fails_once "boom" (PyInt 7)) 2 6)))
            _ _ _ _ _ _) Hst).
  - exists []. reflexivity.
  - lia.
  - reflexivity.
  - reflexivity.
  - vm_compute. reflexivity.
  - vm_compute. reflexivity.
Defined.

(** ** The worker, one resumption at a time *)

Lemma set_coroutine_lookup c pc pc0 w :
  loop_tasks w !! c = Some pc0 → loop_tasks (set_coroutine c pc w) !! c = Some pc.
Proof. intros Hc. simpl. apply list_lookup_insert_eq. by eapply lookup_lt_Some. Qed.

Lemma loop_head_lookup c pc0 w :
  running (queue_manager w) = true → loop_tasks w !! c = Some pc0 →
  loop_tasks (loop_head c w) !! c = Some AwaitGet ∧
  running (queue_manager (loop_head c w)) = true.
Proof.
  intros Hrun Hc. rewrite loop_head_running by done.
  split; [by eapply set_coroutine_lookup | done].
Qed.

Lemma after_execute_fields w :
  running (queue_manager (after_execute w)) = running (queue_manager w) ∧
  loop_tasks (after_execute w) = loop_tasks w ∧
  items (_queue (queue_manager (after_execute w))) = items (_queue (queue_manager w)) ∧
  ready_puts (after_execute w) = ready_puts w.
Proof.
  unfold after_execute, queue_task_done. by case_decide.
Qed.

Lemma items_loop_head c w :
  items (_queue (queue_manager (loop_head c w))) = items (_queue (queue_manager w)).
Proof. unfold loop_head. by destruct (running (queue_manager w)). Qed.

Lemma ready_puts_loop_head c w : ready_puts (loop_head c w) = ready_puts w.
Proof. unfold loop_head. by destruct (running (queue_manager w)). Qed.

Lemma items_after_execute w :
  items (_queue (queue_manager (after_execute w))) = items (_queue (queue_manager w)).
Proof. apply after_execute_fields. Qed.


Lemma worker_get w c r q t now :
  worker_at w c AwaitGet (r :: q) r t →
  ∃ w', resume c now w = Some w' ∧
        worker_at w' c (AwaitFunc r) q r (execute_begin now t) ∧
        ready_puts w' = ready_puts w.
Proof.
  intros (Hrun & Hc & Hitems & Hr). unfold resume. rewrite Hc, Hitems, Hr.
  eexists. split; [reflexivity |]. split; [| done].
  split_and!; simpl; [done | | done |].
  - apply list_lookup_insert_eq. by eapply lookup_lt_Some.
  - apply list_lookup_insert_eq. by eapply lookup_lt_Some.
Qed.

Lemma worker_back_to_loop w c r q t t' now :
  worker_at w c (AwaitFunc r) q r t →
  execute_end now t = (t', BackToLoop) →
  ∃ w', resume c now w = Some w' ∧ worker_at w' c AwaitGet q r t' ∧
        ready_puts w' = ready_puts w.
Proof.
  intros (Hrun & Hc & Hitems & Hr) Hend. unfold resume. rewrite Hc, Hr, Hend.
  eexists. split; [reflexivity |].
  match goal with |- context [loop_head c (after_execute ?x)] =>
    destruct (after_execute_fields x) as (E1 & E2 & E3 & E4);
    destruct (loop_head_lookup c (AwaitFunc r) (after_execute x)) as [H1 H2];
      [by rewrite E1 | by rewrite E2 |]
  end.
  split; [| by rewrite ready_puts_loop_head, E4].
  split_and!; [done | done | by rewrite items_loop_head, E3 |].
  rewrite heap_loop_head, heap_after_execute. simpl.
  apply list_lookup_insert_eq. by eapply lookup_lt_Some.
Qed.

Lemma worker_sleep w c r q t t' now :
  worker_at w c (AwaitFunc r) q r t →
  execute_end now t = (t', SleepThenPut) →
  ∃ w', resume c now w = Some w' ∧
        worker_at w' c (AwaitSleep r (retry_delay t')) q r t' ∧
        ready_puts w' = ready_puts w.
Proof.
  intros (Hrun & Hc & Hitems & Hr) Hend. unfold resume. rewrite Hc, Hr, Hend.
  eexists. split; [reflexivity |]. split; [| done].
  split_and!; simpl; [done | | done |].
  - apply list_lookup_insert_eq. by eapply lookup_lt_Some.
  - apply list_lookup_insert_eq. by eapply lookup_lt_Some.
Qed.

Lemma worker_wake w c r d q t now :
  worker_at w c (AwaitSleep r d) q r t →
  ∃ w', resume c now w = Some w' ∧ worker_at w' c AwaitGet (q ++ [r]) r t ∧
        ready_puts w' = ready_puts w.
Proof.
  intros (Hrun & Hc & Hitems & Hr). unfold resume. rewrite Hc.
  eexists. split; [reflexivity |].
  match goal with |- context [loop_head c (after_execute ?x)] =>
    destruct (after_execute_fields x) as (E1 & E2 & E3 & E4);
    destruct (loop_head_lookup c (AwaitSleep r d) (after_execute x)) as [H1 H2];
      [by rewrite E1 | by rewrite E2 |]
  end.
  split; [| by rewrite ready_puts_loop_head, E4].
  split_and!; [done | done | |].
  - rewrite items_loop_head, E3. simpl. by rewrite Hitems.
  - by rewrite heap_loop_head, heap_after_execute.
Qed.

Lemma worker_put w c pc q r t r0 rest :
  worker_at w c pc q r t → ready_puts w = r0 :: rest →
  ∃ w', run_put w = Some w' ∧ worker_at w' c pc (q ++ [r0]) r t ∧
        ready_puts w' = rest.
Proof.
  intros (Hrun & Hc & Hitems & Hr) Hrp. unfold run_put. rewrite Hrp.
  eexists. split; [reflexivity |]. split; [| done].
  split_and!; simpl; [done | done | by rewrite Hitems | done].
Qed.

Lemma observe_step r ev evs w w' t :
  heap w !! r = Some t → step ev w = Some w' →
  observe r (ev :: evs) w = observation t :: observe r evs w'.
Proof. intros Hr Hstep. simpl. by rewrite Hr, Hstep. Qed.

Lemma observe_nil r w t :
  heap w !! r = Some t → observe r [] w = [observation t].
Proof. intros Hr. simpl. by rewrite Hr. Qed.

(** ** A task that always fails *)

Lemma destutter_cons_cons {A} `{EqDecision A} (x y : A) l :
  destutter (x :: y :: l) =
    if decide (x = y) then destutter (y :: l) else x :: destutter (y :: l).
Proof. done. Qed.

Lemma destutter_head {A} `{EqDecision A} (x : A) l :
  ∃ l', destutter (x :: l) = x :: l'.
Proof.
  revert x. induction l as [| y l IH]; intros x; [by eexists |].
  rewrite destutter_cons_cons. case_decide as Heq; [| by eexists].
  subst y. apply IH.
Qed.

Lemma last_destutter {A} `{EqDecision A} (l : list A) : last (destutter l) = last l.
Proof.
  induction l as [| x l IH]; [done |].
  destruct l as [| y l]; [done |].
  rewrite destutter_cons_cons, last_cons_cons.
  case_decide; [exact IH |].
  rewrite <- IH. destruct (destutter_head y l) as [l' ->].
  by rewrite last_cons_cons.
Qed.

Lemma prefix_same_last {A} (l c : list A) x :
  l `prefix_of` c → NoDup c → last l = Some x → last c = Some x → l = c.
Proof.
  intros [k ->] Hnd Hl Hc. destruct k as [| y k]; [by rewrite app_nil_r |].
  exfalso. apply NoDup_app in Hnd as (_ & Hdisj & _).
  apply (Hdisj x).
  - by eapply last_Some_elem_of.
  - rewrite last_app_cons in Hc. by eapply last_Some_elem_of.
Qed.

Lemma observe_head r evs w t :
  heap w !! r = Some t → ∃ l, observe r evs w = observation t :: l.
Proof. intros Hr. destruct evs; simpl; rewrite Hr; by eexists. Qed.

Lemma observe_last r evs w w' t t' :
  world_inv w → run evs w = Some w' → heap w !! r = Some t → heap w' !! r = Some t' →
  last (observe r evs w) = Some (observation t').
Proof.
  revert w t. induction evs as [| ev evs IH]; intros w t Hinv Hrun Hr Hr'; simpl in *.
  - injection Hrun as <-. rewrite Hr. simpl. congruence.
  - rewrite Hr. destruct (step ev w) as [w1 |] eqn:Hstep; [| done]. simpl in Hrun.
    destruct (step_task ev w w1 r t Hinv Hstep Hr) as (t1 & Hr1 & _).
    destruct (observe_head r evs w1 t1 Hr1) as [l Hl]. rewrite Hl, last_cons_cons, <- Hl.
    eapply IH; eauto using step_inv.
Qed.

Lemma failing_twice_NoDup : NoDup failing_twice.
Proof. apply (bool_decide_unpack _). by vm_compute. Qed.

Lemma execute_end_raises now t e0 :
  func t (args t) (kwargs t) 0%nat = Raises e0 →
  execute_end now t =
    if decide (retry_count t + 1 < max_retries t)
    then (set_status RETRYING
            (set_retry_count (retry_count t + 1)
               (set_error (Some e0) (set_func (advance (func t)) t))),
          SleepThenPut)
    else (set_completed_at (Some now)
            (set_status FAILED
               (set_retry_count (retry_count t + 1)
                  (set_error (Some e0) (set_func (advance (func t)) t)))),
          BackToLoop).
Proof. intros Hf. unfold execute_end, call_func. rewrite Hf. simpl. done. Qed.

Lemma doomed_new task_id nm f a k rd now e :
  (∀ n, f a k n = Raises (e n)) → doomed e (new_QueueTask task_id nm f a k 2 rd now).
Proof.
  intros Hf. split_and!; simpl; [done | done | | lia].
  unfold observation, failing_twice. simpl. apply elem_of_cons. by left.
Qed.

Lemma doomed_cases e t :
  doomed e t →
  (status t = PENDING ∧ retry_count t = 0) ∨ (status t = RUNNING ∧ retry_count t = 0) ∨
  (status t = RETRYING ∧ retry_count t = 1) ∨ (status t = RUNNING ∧ retry_count t = 1) ∨
  (status t = FAILED ∧ retry_count t = 2).
Proof.
  intros (_ & _ & Hobs & _). unfold observation, failing_twice in Hobs.
  repeat (apply elem_of_cons in Hobs as [[= -> ->] | Hobs]; [tauto |]).
  by apply elem_of_nil in Hobs.
Qed.

Lemma failing_twice_elem o : bool_decide (o ∈ failing_twice) = true → o ∈ failing_twice.
Proof. apply bool_decide_eq_true_1. Qed.

Lemma doomed_step e t t' :
  doomed e t → task_step t t' →
  doomed e t' ∧
  (observation t' = observation t ∨
   ∃ i, failing_twice !! i = Some (observation t) ∧
        failing_twice !! S i = Some (observation t')).
Proof.
  intros Hd Hts. pose proof (doomed_cases e t Hd) as Hc.
  destruct Hd as (Hmr & Hf & Hobs & Herr).
  destruct Hts as [| now Hst | now Hst].
  - split; [done | by left].
  - assert (Hd' : observation (execute_begin now t) ∈ failing_twice →
                   doomed e (execute_begin now t)).
    { intros Ho. split_and!; done. }
    destruct Hc as [[Hs Hrc] | [[Hs Hrc] | [[Hs Hrc] | [[Hs Hrc] | [Hs Hrc]]]]];
      try (destruct Hst; congruence).
    + split.
      * apply Hd'. unfold observation. simpl. rewrite Hrc.
        by apply failing_twice_elem.
      * right. exists 0%nat. unfold observation. simpl. by rewrite Hs, Hrc.
    + split.
      * apply Hd'. unfold observation. simpl. rewrite Hrc.
        by apply failing_twice_elem.
      * right. exists 2%nat. unfold observation. simpl. by rewrite Hs, Hrc.
  - destruct Hc as [[Hs Hrc] | [[Hs Hrc] | [[Hs Hrc] | [[Hs Hrc] | [Hs Hrc]]]]];
      try congruence.
    + pose proof (Hf 0%nat) as Hcall. rewrite Hrc in Hcall. simpl in Hcall.
      rewrite (execute_end_raises now t _ Hcall), Hrc, Hmr. simpl.
      split.
      * split_and!; simpl; [done | | by apply failing_twice_elem | done].
        intros n. unfold advance. rewrite Hf, Hrc. done.
      * right. exists 1%nat. unfold observation. simpl. by rewrite Hs, Hrc.
    + pose proof (Hf 0%nat) as Hcall. rewrite Hrc in Hcall. simpl in Hcall.
      rewrite (execute_end_raises now t _ Hcall), Hrc, Hmr. simpl.
      split.
      * split_and!; simpl; [done | | by apply failing_twice_elem | done].
        intros n. unfold advance. rewrite Hf, Hrc. done.
      * right. exists 3%nat. unfold observation. simpl. by rewrite Hs, Hrc.
Qed.

Lemma doomed_observe e r evs w t i :
  world_inv w → heap w !! r = Some t → doomed e t →
  failing_twice !! i = Some (observation t) →
  destutter (observe r evs w) `prefix_of` drop i failing_twice.
Proof.
  revert w t i. induction evs as [| ev evs IH]; intros w t i Hinv Hr Hd Hi.
  - simpl. rewrite Hr. simpl. rewrite (drop_S _ _ _ Hi).
    apply prefix_cons, prefix_nil.
  - simpl. rewrite Hr. rewrite (drop_S _ _ _ Hi).
    destruct (step ev w) as [w1 |] eqn:Hstep; [| apply prefix_cons, prefix_nil].
    destruct (step_task ev w w1 r t Hinv Hstep Hr) as (t1 & Hr1 & Hts).
    destruct (doomed_step e t t1 Hd Hts) as [Hd1 Hnext].
    destruct (observe_head r evs w1 t1 Hr1) as [l Hl].
    rewrite Hl, destutter_cons_cons, <- Hl.
    pose proof (step_inv _ _ _ Hinv Hstep) as Hinv1.
    case_decide as Heq.
    + rewrite <- (drop_S _ _ _ Hi). apply (IH w1 t1 i); try done. by rewrite <- Heq.
    + destruct Hnext as [Hsame | (j & Hj & HSj)]; [congruence |].
      assert (j = i) as -> by (eapply NoDup_lookup; eauto using failing_twice_NoDup).
      apply prefix_cons. by apply (IH w1 t1 (S i)).
Qed.

Lemma doomed_run e evs w w' r t :
  world_inv w → run evs w = Some w' → heap w !! r = Some t → doomed e t →
  ∃ t', heap w' !! r = Some t' ∧ doomed e t'.
Proof.
  revert w t. induction evs as [| ev evs IH]; intros w t Hinv Hrun Hr Hd; simpl in Hrun.
  - injection Hrun as <-. by exists t.
  - destruct (step ev w) as [w1 |] eqn:Hstep; [| done]. simpl in Hrun.
    destruct (step_task ev w w1 r t Hinv Hstep Hr) as (t1 & Hr1 & Hts).
    apply (IH w1 t1); eauto using step_inv. by eapply doomed_step.
Qed.

(** The worker idle on the empty queue takes a task with [max_retries = 2]
    whose callable raises at its first two invocations through both
    attempts in five resumptions. *)
Lemma doomed_progress w0 c task_id now nm f a k rd e0 e1 n1 n2 n3 n4 n5 :
  running (queue_manager w0) = true →
  loop_tasks w0 !! c = Some AwaitGet →
  items (_queue (queue_manager w0)) = [] →
  ready_puts w0 = [] →
  f a k 0%nat = Raises e0 → f a k 1%nat = Raises e1 →
  (∃ w t,
    run [RunPut; Resume c n1; Resume c n2]
        (add_task task_id now nm f a k 2 rd w0).2 = Some w ∧
    heap w !! length (heap w0) = Some t ∧
    status t = RETRYING ∧ retry_count t = 1 ∧ error t = Some e0) ∧
  ∃ w t,
    run [RunPut; Resume c n1; Resume c n2; Resume c n3; Resume c n4; Resume c n5]
        (add_task task_id now nm f a k 2 rd w0).2 = Some w ∧
    heap w !! length (heap w0) = Some t ∧
    destutter (observe (length (heap w0))
                 [RunPut; Resume c n1; Resume c n2; Resume c n3; Resume c n4; Resume c n5]
                 (add_task task_id now nm f a k 2 rd w0).2) = failing_twice ∧
    status t = FAILED ∧ retry_count t = 2 ∧ error t = Some e1 ∧
    completed_at t = Some n5 ∧
    loop_tasks w !! c = Some AwaitGet ∧ items (_queue (queue_manager w)) = [].
Proof.
  intros Hrun Hc Hitems Hrp Hf0 Hf1.
  set (r := length (heap w0)).
  set (w1 := (add_task task_id now nm f a k 2 rd w0).2).
  set (t0 := new_QueueTask task_id nm f a k 2 rd now).
  assert (Hw1 : worker_at w1 c AwaitGet [] r t0).
  { split_and!; simpl; [done | done | done |].
    unfold r. by rewrite lookup_app_r, Nat.sub_diag by lia. }
  assert (Hrp1 : ready_puts w1 = [r]) by (simpl; by rewrite Hrp).
  destruct (worker_put _ _ _ _ _ _ _ _ Hw1 Hrp1) as (w2 & Hs2 & Hw2 & _).
  simpl in Hw2.
  destruct (worker_get _ _ _ _ _ n1 Hw2) as (w3 & Hs3 & Hw3 & _).
  assert (He3 : execute_end n2 (execute_begin n1 t0) =
                (set_status RETRYING
                   (set_retry_count 1
                      (set_error (Some e0)
                         (set_func (advance f) (execute_begin n1 t0)))),
                 SleepThenPut)).
  { by rewrite (execute_end_raises n2 (execute_begin n1 t0) e0 Hf0). }
  destruct (worker_sleep _ _ _ _ _ _ n2 Hw3 He3) as (w4 & Hs4 & Hw4 & _).
  destruct (worker_wake _ _ _ _ _ _ n3 Hw4) as (w5 & Hs5 & Hw5 & _).
  simpl in Hw5.
  destruct (worker_get _ _ _ _ _ n4 Hw5) as (w6 & Hs6 & Hw6 & _).
  match type of Hw6 with worker_at _ _ _ _ _ ?t => set (t6 := t) in * end.
  assert (He6 : execute_end n5 t6 =
                (set_completed_at (Some n5)
                   (set_status FAILED
                      (set_retry_count 2
                         (set_error (Some e1) (set_func (advance (func t6)) t6)))),
                 BackToLoop)).
  { by rewrite (execute_end_raises n5 t6 e1 Hf1). }
  destruct (worker_back_to_loop _ _ _ _ _ _ n5 Hw6 He6) as (w7 & Hs7 & Hw7 & _).
  split.
  { exists w4. eexists. split_and!; [| apply Hw4 | done | done | done].
    simpl. fold w1. rewrite Hs2. simpl. rewrite Hs3. simpl. by rewrite Hs4. }
  exists w7. eexists. split_and!.
  - simpl. fold w1. rewrite Hs2. simpl. rewrite Hs3. simpl. rewrite Hs4. simpl.
    rewrite Hs5. simpl. rewrite Hs6. simpl. by rewrite Hs7.
  - apply Hw7.
  - fold w1 r.
    rewrite (observe_step r RunPut _ w1 w2 _ (proj2 (proj2 (proj2 Hw1))) Hs2).
    rewrite (observe_step r (Resume c n1) _ w2 w3 _ (proj2 (proj2 (proj2 Hw2))) Hs3).
    rewrite (observe_step r (Resume c n2) _ w3 w4 _ (proj2 (proj2 (proj2 Hw3))) Hs4).
    rewrite (observe_step r (Resume c n3) _ w4 w5 _ (proj2 (proj2 (proj2 Hw4))) Hs5).
    rewrite (observe_step r (Resume c n4) _ w5 w6 _ (proj2 (proj2 (proj2 Hw5))) Hs6).
    rewrite (observe_step r (Resume c n5) _ w6 w7 _ (proj2 (proj2 (proj2 Hw6))) Hs7).
    rewrite (observe_nil r w7 _ (proj2 (proj2 (proj2 Hw7)))).
    reflexivity.
  - done.
  - done.
  - done.
  - done.
  - apply Hw7.
  - apply Hw7.
Qed.

(** C3: a task submitted with [max_retries = 2] whose callable raises at
    every invocation, the [n]th time with text [e n].  Whatever else
    happens in the process, it is seen as PENDING, RUNNING, RETRYING with
    [retry_count = 1], RUNNING, FAILED with [retry_count = 2], in this
    order, and it is never COMPLETED; while it is RETRYING its
    [retry_count] is 1 and its [error] the text of the first failure; once
    it is FAILED the whole sequence has been seen, [retry_count] is 2 and
    [error] is the text of the second failure.  And the end is reached: a
    worker idle on the empty queue takes the task there in five resumptions,
    the second of which leaves it RETRYING and the fifth FAILED. *)
Theorem always_failing_task_fails_after_two w0 task_id now nm f a k rd e :
  reachable w0 →
  (∀ n, f a k n = Raises (e n)) →
  (∀ evs w,
     run evs (add_task task_id now nm f a k 2 rd w0).2 = Some w →
     destutter (observe (length (heap w0)) evs (add_task task_id now nm f a k 2 rd w0).2)
       `prefix_of` failing_twice ∧
     ∃ t, heap w !! length (heap w0) = Some t ∧
          status t ≠ COMPLETED ∧
          (status t = RETRYING → retry_count t = 1 ∧ error t = Some (e 0%nat)) ∧
          (status t = FAILED →
           destutter (observe (length (heap w0)) evs
                        (add_task task_id now nm f a k 2 rd w0).2) = failing_twice ∧
           retry_count t = 2 ∧ error t = Some (e 1%nat))) ∧
  (∀ c n1 n2 n3 n4 n5,
     running (queue_manager w0) = true →
     loop_tasks w0 !! c = Some AwaitGet →
     items (_queue (queue_manager w0)) = [] →
     ready_puts w0 = [] →
     (∃ w t,
        run [RunPut; Resume c n1; Resume c n2]
            (add_task task_id now nm f a k 2 rd w0).2 = Some w ∧
        heap w !! length (heap w0) = Some t ∧
        status t = RETRYING ∧ retry_count t = 1 ∧ error t = Some (e 0%nat)) ∧
     (∃ w t,
        run [RunPut; Resume c n1; Resume c n2; Resume c n3; Resume c n4; Resume c n5]
            (add_task task_id now nm f a k 2 rd w0).2 = Some w ∧
        heap w !! length (heap w0) = Some t ∧
        destutter (observe (length (heap w0))
                     [RunPut; Resume c n1; Resume c n2; Resume c n3; Resume c n4;
                      Resume c n5]
                     (add_task task_id now nm f a k 2 rd w0).2) = failing_twice ∧
        status t = FAILED ∧ retry_count t = 2 ∧ error t = Some (e 1%nat) ∧
        completed_at t = Some n5)).
Proof.
  intros Hw0 Hf.
  pose proof (add_task_inv task_id now nm f a k 2 rd w0 (reachable_inv w0 Hw0)) as Hinv1.
  assert (Hr1 : heap (add_task task_id now nm f a k 2 rd w0).2 !! length (heap w0)
                = Some (new_QueueTask task_id nm f a k 2 rd now)).
  { simpl. by rewrite lookup_app_r, Nat.sub_diag by lia. }
  pose proof (doomed_new task_id nm f a k rd now e Hf) as Hd0.
  split.
  - intros evs w Hrun.
    assert (Hpre := doomed_observe e _ evs _ _ 0%nat Hinv1 Hr1 Hd0 eq_refl).
    rewrite drop_0 in Hpre. split; [done |].
    destruct (doomed_run e evs _ w _ _ Hinv1 Hrun Hr1 Hd0) as (t & Hr & Hd).
    exists t. split; [done |].
    pose proof (doomed_cases e t Hd) as Hc. split_and!.
    + intros Hst. destruct Hc as [[? ?] | [[? ?] | [[? ?] | [[? ?] | [? ?]]]]]; congruence.
    + intros Hst.
      assert (Hrc : retry_count t = 1).
      { destruct Hc as [[? ?] | [[? ?] | [[? ?] | [[? ?] | [? ?]]]]]; congruence. }
      split; [done |].
      destruct Hd as (_ & _ & _ & Herr). rewrite Herr, Hrc by lia. done.
    + intros Hst.
      assert (Hrc : retry_count t = 2).
      { destruct Hc as [[? ?] | [[? ?] | [[? ?] | [[? ?] | [? ?]]]]]; congruence. }
      split_and!; [| done |].
      * apply (prefix_same_last _ _ (FAILED, 2)); [done | apply failing_twice_NoDup | | done].
        rewrite last_destutter.
        rewrite (observe_last _ evs _ w _ t Hinv1 Hrun Hr1 Hr).
        unfold observation. by rewrite Hst, Hrc.
      * destruct Hd as (_ & _ & _ & Herr). rewrite Herr, Hrc by lia. done.
  - intros c n1 n2 n3 n4 n5 Hrun Hc Hitems Hrp.
    destruct (doomed_progress w0 c task_id now nm f a k rd (e 0%nat) (e 1%nat)
                n1 n2 n3 n4 n5 Hrun Hc Hitems Hrp (Hf 0%nat) (Hf 1%nat))
      as [Hfirst (w & t & Hw & Ht & Hobs & Hst & Hrc & Herr & Hca & _)].
    split; [done | by exists w, t].
Qed.

Lemma always_failing_task_fails_after_two_witness :
  (destutter (observe 0 (skipn 1 (lone_task (always_fails "boom") 2 6))
                (add_task "t1" 0 "job" (always_fails "boom") [] [] 2 20 init).2)
     `prefix_of` failing_twice ∧
   ∃ t, heap (world_after (lone_task (always_fails "boom") 2 6)) !! 0%nat = Some t ∧
        status t ≠ COMPLETED ∧
        (status t = RETRYING → retry_count t = 1 ∧ error t = Some "boom") ∧
        (status t = FAILED →
         destutter (observe 0 (skipn 1 (lone_task (always_fails "boom") 2 6))
                      (add_task "t1" 0 "job" (always_fails "boom") [] [] 2 20 init).2)
           = failing_twice ∧
         retry_count t = 2 ∧ error t = Some "boom")) ∧
  (∃ w t,
     run [RunPut; Resume 0 3; Resume 0 4]
         (add_task "t2" 2 "job" failing_differently [] [] 2 20 world_idle).2 = Some w ∧
     heap w !! 0%nat = Some t ∧
     status t = RETRYING ∧ retry_count t = 1 ∧ error t = Some "first") ∧
  (∃ w t,
     run [RunPut; Resume 0 3; Resume 0 4; Resume 0 24; Resume 0 25; Resume 0 26]
         (add_task "t2" 2 "job" failing_differently [] [] 2 20 world_idle).2 = Some w ∧
     heap w !! 0%nat = Some t ∧
     destutter (observe 0
                  [RunPut; Resume 0 3; Resume 0 4; Resume 0 24; Resume 0 25; Resume 0 26]
                  (add_task "t2" 2 "job" failing_differently [] [] 2 20 world_idle).2)
       = failing_twice ∧
     status t = FAILED ∧ retry_count t = 2 ∧ error t = Some "second" ∧
     completed_at t = Some 26).
Proof.
  split.
  - apply (always_failing_task_fails_after_two init "t1" 0 "job"
             (always_fails "boom") [] [] 20 (λ _, "boom")).
    + exists []. reflexivity.
    + intros n. reflexivity.
    + vm_compute. reflexivity.
  - apply (always_failing_task_fails_after_two world_idle "t2" 2 "job"
             failing_differently [] [] 20
             (λ n, match n with O => "first" | S _ => "second" end)).
    + exists [Start; Resume 0 1]. vm_compute. reflexivity.
    + intros [| n]; reflexivity.
    + vm_compute. reflexivity.
    + vm_compute. reflexivity.
    + vm_compute. reflexivity.
    + vm_compute. reflexivity.
Defined.

(** ** The task table *)

Lemma manager_loop_head c w :
  tasks (queue_manager (loop_head c w)) = tasks (queue_manager w).
Proof. unfold loop_head. by destruct (running (queue_manager w)). Qed.

Lemma manager_after_execute w :
  tasks (queue_manager (after_execute w)) = tasks (queue_manager w).
Proof.
  unfold after_execute. by destruct (queue_task_done (_queue (queue_manager w))).
Qed.

Lemma step_tasks ev w w' :
  step ev w = Some w' →
  tasks (queue_manager w') =
    match ev with
    | AddTask task_id _ _ _ _ _ _ _ =>
        <[task_id := length (heap w)]> (tasks (queue_manager w))
    | _ => tasks (queue_manager w)
    end.
Proof.
  destruct ev as [task_id now nm f a k mr rd | | | | c now]; simpl.
  - by intros [= <-].
  - unfold run_put. destruct (ready_puts w); [done |]. by intros [= <-].
  - intros [= <-]. unfold start. by destruct (running (queue_manager w)).
  - intros [= <-]. apply stop_fields.
  - unfold resume.
    destruct (loop_tasks w !! c) as [[| | r | r d |] |]; try done.
    + intros [= <-]. apply manager_loop_head.
    + destruct (items (_queue (queue_manager w))).
      { intros [= <-]. apply manager_loop_head. }
      destruct (heap w !! n); [| done]. by intros [= <-].
    + destruct (heap w !! r); [| done].
      destruct (execute_end now q) as [task' [| |]]; intros [= <-]; [| done | done].
      by rewrite manager_loop_head, manager_after_execute.
    + intros [= <-]. by rewrite manager_loop_head, manager_after_execute.
Qed.

(** The table knows exactly the identifiers that [add_task] has returned. *)
Lemma run_table evs w w' task_id :
  run evs w = Some w' →
  is_Some (tasks (queue_manager w') !! task_id) ↔
    is_Some (tasks (queue_manager w) !! task_id) ∨ task_id ∈ issued evs.
Proof.
  revert w. induction evs as [| ev evs IH]; intros w; simpl.
  - intros [= <-]. split; [by left |]. intros [? | H]; [done |]. by apply elem_of_nil in H.
  - destruct (step ev w) as [w1 |] eqn:Hstep; [| done]. simpl. intros Hrun.
    rewrite (IH w1 Hrun), (step_tasks ev w w1 Hstep).
    destruct ev as [tid now nm f a k mr rd | | | |]; try done.
    rewrite elem_of_cons, lookup_insert_is_Some.
    destruct (decide (tid = task_id)) as [-> | Hne]; intuition congruence.
Qed.

Lemma step_table_ok ev w w' :
  world_inv w → table_ok w → step ev w = Some w' → table_ok w'.
Proof.
  intros Hinv Htab Hstep k r t Hk Hr.
  rewrite (step_tasks ev w w' Hstep) in Hk.
  assert (Hold : tasks (queue_manager w) !! k = Some r → id t = k).
  { intros Hk0. destruct (inv_table w Hinv k r Hk0) as [t0 Ht0].
    destruct (step_task ev w w' r t0 Hinv Hstep Ht0) as (t1 & Hr1 & Hts).
    assert (t1 = t) as -> by congruence.
    apply task_step_identity in Hts as (Hid & _). rewrite Hid. by eapply Htab. }
  destruct ev as [tid now nm f a k0 mr rd | | | |]; try by apply Hold.
  apply lookup_insert_Some in Hk as [[<- <-] | [_ Hk]]; [| by apply Hold].
  injection Hstep as <-. simpl in Hr.
  rewrite lookup_app_r, Nat.sub_diag in Hr by lia. by injection Hr as <-.
Qed.

Lemma reachable_table_ok w : reachable w → table_ok w.
Proof.
  intros [evs Hrun].
  assert (Hgen : ∀ evs w0, world_inv w0 → table_ok w0 → run evs w0 = Some w → table_ok w).
  { clear. intros evs. induction evs as [| ev evs IH]; intros w0 Hinv Htab; simpl.
    - by intros [= <-].
    - destruct (step ev w0) as [w1 |] eqn:Hstep; [| done]. simpl.
      apply IH; eauto using step_inv, step_table_ok. }
  apply (Hgen evs init); [apply init_inv | | done].
  intros k r t Hk.
  change (tasks (queue_manager init)) with (∅ : gmap string nat) in Hk.
  by rewrite lookup_empty in Hk.
Qed.

Lemma get_task_status_cases evs w task_id :
  run evs init = Some w →
  (task_id ∉ issued evs → get_task_status task_id w = (Return None, w)) ∧
  (task_id ∈ issued evs →
   ∃ d, get_task_status task_id w = (Return (Some d), w) ∧
        StatusDict.id d = task_id).
Proof.
  intros Hrun.
  assert (Hw : reachable w) by (by exists evs).
  pose proof (run_table evs init w task_id Hrun) as Hdom.
  change (tasks (queue_manager init)) with (∅ : gmap string nat) in Hdom.
  rewrite lookup_empty in Hdom. split.
  - intros Hnot.
    assert (Hnone : tasks_get task_id w = None).
    { unfold tasks_get. destruct (tasks (queue_manager w) !! task_id) eqn:E; [| done].
      exfalso. apply Hnot. destruct Hdom as [Hdom _].
      destruct Hdom as [[? [=]] | ?]; [by eexists | done]. }
    unfold get_task_status. by rewrite Hnone.
  - intros Hin.
    destruct Hdom as [_ Hdom]. destruct Hdom as [r Hk]; [by right |].
    destruct (inv_table w (reachable_inv w Hw) _ _ Hk) as [t Ht].
    assert (Hget : tasks_get task_id w = Some t).
    { unfold tasks_get. rewrite Hk. done. }
    unfold get_task_status. rewrite Hget, (reachable_progress w r t Hw Ht).
    eexists. split; [reflexivity |].
    simpl. by eapply reachable_table_ok.
Qed.

Lemma submitted_issued evs task_id :
  task_id ∈ issued evs ↔ is_Some (submitted evs task_id).
Proof.
  induction evs as [| ev evs IH]; simpl.
  - split; [intros H; by apply elem_of_nil in H | by intros [? [=]]].
  - destruct (submitted evs task_id) as [s |] eqn:Hs.
    + assert (Hin : task_id ∈ issued evs) by (apply IH; by eexists).
      split; [by eexists |]. intros _.
      destruct ev; try done. apply elem_of_cons. by right.
    + assert (Hnot : task_id ∉ issued evs).
      { intros Hin. apply IH in Hin as [? [=]]. }
      destruct ev as [tid now nm f a k mr rd | | | |];
        try (split; [done | by intros [? [=]]]).
      rewrite elem_of_cons. case_decide as Heq.
      * split; [by eexists | by left].
      * split; [intros [-> | ?]; done | by intros [? [=]]].
Qed.

Lemma run_tasks_kept evs w w' task_id :
  run evs w = Some w' → task_id ∉ issued evs →
  tasks (queue_manager w') !! task_id = tasks (queue_manager w) !! task_id.
Proof.
  revert w. induction evs as [| ev evs IH]; intros w; simpl.
  - by intros [= <-].
  - destruct (step ev w) as [w1 |] eqn:Hstep; [| done]. simpl. intros Hrun Hnot.
    pose proof (step_tasks ev w w1 Hstep) as Htab.
    destruct ev as [tid now nm f a k mr rd | | | |];
      try (rewrite (IH w1 Hrun Hnot); by rewrite Htab).
    apply not_elem_of_cons in Hnot as [Hne Hnot].
    rewrite (IH w1 Hrun Hnot), Htab. by apply lookup_insert_ne.
Qed.

(** The entry of an identifier leads to the task object made by the latest
    [add_task] call that returned it. *)
Lemma run_submitted evs w w' task_id nm mr rd now :
  world_inv w → run evs w = Some w' →
  submitted evs task_id = Some (nm, mr, rd, now) →
  ∃ r t, tasks (queue_manager w') !! task_id = Some r ∧ heap w' !! r = Some t ∧
         name t = nm ∧ max_retries t = mr ∧ retry_delay t = rd ∧
         created_at t = Some now.
Proof.
  revert w. induction evs as [| ev evs IH]; intros w Hinv; simpl; [done |].
  destruct (step ev w) as [w1 |] eqn:Hstep; [| done]. simpl. intros Hrun Hsub.
  pose proof (step_inv _ _ _ Hinv Hstep) as Hinv1.
  destruct (submitted evs task_id) as [s |] eqn:Hs.
  - injection Hsub as ->. by apply (IH w1).
  - assert (Hnot : task_id ∉ issued evs).
    { intros Hin. apply submitted_issued in Hin as [? Hin]. congruence. }
    destruct ev as [tid now' nm' f a k mr' rd' | | | |]; try done.
    case_decide as Heq; [| done]. injection Hsub as -> -> -> ->. subst tid.
    injection Hstep as <-.
    assert (Hr : heap (add_task task_id now nm f a k mr rd w).2 !! length (heap w)
                 = Some (new_QueueTask task_id nm f a k mr rd now)).
    { simpl. by rewrite lookup_app_r, Nat.sub_diag by lia. }
    destruct (run_task evs _ w' _ _ Hinv1 Hrun Hr) as (t & Ht & Hid).
    exists (length (heap w)), t.
    rewrite (run_tasks_kept evs _ w' task_id Hrun Hnot).
    destruct Hid as (_ & Hnm & _ & _ & Hmr & Hrd & Hca).
    split_and!; [by apply lookup_insert_eq | done | done | done | done | done].
Qed.

Lemma get_task_status_snapshot evs w task_id :
  run evs init = Some w → task_id ∈ issued evs →
  ∃ t, tasks_get task_id w = Some t ∧ id t = task_id ∧
       get_task_status task_id w = (Return (Some (snapshot t)), w) ∧
       ∃ nm mr rd now,
         submitted evs task_id = Some (nm, mr, rd, now) ∧
         name t = nm ∧ max_retries t = mr ∧ created_at t = Some now.
Proof.
  intros Hrun Hin.
  assert (Hw : reachable w) by (by exists evs).
  apply submitted_issued in Hin as [[[[nm mr] rd] now] Hsub].
  destruct (run_submitted evs init w task_id nm mr rd now init_inv Hrun Hsub)
    as (r & t & Hk & Ht & Hnm & Hmr & Hrd & Hca).
  assert (Hget : tasks_get task_id w = Some t).
  { unfold tasks_get. rewrite Hk. done. }
  exists t. split_and!; [done | by eapply reachable_table_ok | |].
  - unfold get_task_status. by rewrite Hget, (reachable_progress w r t Hw Ht).
  - by exists nm, mr, rd, now.
Qed.

(** C8: for an identifier that no [add_task] call has returned,
    [get_task_status] returns [None], which is no status dict at all, and
    leaves the world, task table and queue included, as it was.  For an
    identifier that was returned it leaves the world as it was and returns
    the snapshot of the task the table holds under it: that task's
    identifier, which is the one asked for, its name, status string,
    [retry_count], [max_retries], derived progress, three timestamps and
    error text, where name, [max_retries] and [created_at] are those of the
    latest [add_task] call that returned the identifier. *)
Theorem get_task_status_known_or_none evs w task_id :
  run evs init = Some w →
  (task_id ∉ issued evs →
   get_task_status task_id w = (Return None, w) ∧
   ∀ d, (get_task_status task_id w).1 ≠ Return (Some d)) ∧
  (task_id ∈ issued evs →
   ∃ t, tasks_get task_id w = Some t ∧ id t = task_id ∧
        get_task_status task_id w = (Return (Some (snapshot t)), w) ∧
        ∃ nm mr rd now,
          submitted evs task_id = Some (nm, mr, rd, now) ∧
          name t = nm ∧ max_retries t = mr ∧ created_at t = Some now).
Proof.
  intros Hrun. destruct (get_task_status_cases evs w task_id Hrun) as [Hnone _].
  split; [| by apply get_task_status_snapshot].
  intros Hnot. rewrite (Hnone Hnot). split; [done |]. intros d. simpl. congruence.
Qed.

(** ** Starting the worker *)

Lemma filter_live_none (l : list Coroutine) :
  (∀ c pc, l !! c = Some pc → pc = Finished) →
  filter (λ pc, pc ≠ Finished) l = [].
Proof.
  induction l as [| pc l IH]; intros Hall; [done |].
  rewrite filter_cons_False.
  - apply IH. intros c pc' Hc. by apply (Hall (S c)).
  - intros Hlive. apply Hlive. by apply (Hall 0%nat).
Qed.


Lemma live_loops_one w c pc :
  worker_on_record w → loop_tasks w !! c = Some pc → pc ≠ Finished →
  live_loops w = 1%nat.
Proof.
  intros Hrec Hc Hlive. unfold live_loops.
  assert (Hother : ∀ c0 pc0, c0 ≠ c → loop_tasks w !! c0 = Some pc0 → pc0 = Finished).
  { intros c0 pc0 Hne H0. destruct (decide (pc0 = Finished)) as [| Hl]; [done |].
    pose proof (Hrec c pc Hc Hlive). pose proof (Hrec c0 pc0 H0 Hl). congruence. }
  rewrite <- (take_drop_middle _ _ _ Hc), filter_app, filter_cons_True by done.
  rewrite !filter_live_none; [done | |].
  - intros c0 pc0 H0. rewrite lookup_drop in H0.
    apply (Hother (S c + c0)%nat pc0); [lia | done].
  - intros c0 pc0 H0. apply lookup_take_Some in H0 as [H0 Hlt].
    apply (Hother c0 pc0); [lia | done].
Qed.


Lemma start_running w : running (queue_manager (start w)) = true.
Proof. unfold start. by destruct (running (queue_manager w)) eqn:E. Qed.

Lemma start_live_loops w :
  live_loops (start w) =
    if running (queue_manager w) then live_loops w else S (live_loops w).
Proof.
  unfold start. destruct (running (queue_manager w)); [done |].
  unfold live_loops. simpl.
  rewrite filter_app, length_app, filter_cons_True by done. simpl. lia.
Qed.


(** Two worlds where two calls of [start] in succession do not leave exactly
    one live coroutine of [_process_queue].  In [world_orphaned] the worker
    has been ended by a [CancelledError] out of the callable while the flag
    [running] is still set: [start] does nothing and no worker is alive.  In
    [world_in_flight] a [stop] whose cancellation [wait_for] swallows clears
    the flag and leaves the worker alive: [start] adds a second one. *)
Lemma start_twice_is_not_one_worker :
  reachable world_orphaned ∧
  running (queue_manager world_orphaned) = true ∧
  live_loops (start (start world_orphaned)) = 0%nat ∧
  reachable world_in_flight ∧
  live_loops (start (start (stop_swallowed world_in_flight))) = 2%nat.
Proof.
  split_and!.
  - exists (lone_task always_cancelled 2 3). vm_compute. reflexivity.
  - vm_compute. reflexivity.
  - vm_compute. reflexivity.
  - exists [Start; Resume 0 1;
            AddTask "t1" 2 "job" (always_returns (PyInt 7)) [] [] 3 20; RunPut].
    vm_compute. reflexivity.
  - vm_compute. reflexivity.
Qed.

(** C9, as the code has it: [start] does nothing when the flag [running] is
    set, and calling it twice is the same as calling it once.  It looks at
    the flag and not at the coroutines: two calls in succession leave as
    many live coroutines of [_process_queue] as there were when the flag was
    set, and one more, the one on record, when it was clear.  So they leave
    exactly one when the manager was stopped with no worker alive, or
    running with its one worker alive. *)
Theorem start_is_idempotent w :
  (running (queue_manager w) = true → start w = w) ∧
  start (start w) = start w ∧
  running (queue_manager (start w)) = true ∧
  live_loops (start (start w)) =
    (if running (queue_manager w) then live_loops w else S (live_loops w)) ∧
  (running (queue_manager w) = false →
   loop_tasks (start (start w)) = loop_tasks w ++ [Created] ∧
   _processing_task (queue_manager (start (start w))) = Some (length (loop_tasks w))) ∧
  (running (queue_manager w) = false → live_loops w = 0%nat →
   live_loops (start (start w)) = 1%nat) ∧
  (running (queue_manager w) = true → live_loops w = 1%nat →
   live_loops (start (start w)) = 1%nat).
Proof.
  assert (H2 : start (start w) = start w).
  { unfold start at 1. by rewrite start_running. }
  rewrite H2. split_and!.
  - intros Hrun. unfold start. by rewrite Hrun.
  - done.
  - apply start_running.
  - apply start_live_loops.
  - intros Hrun. unfold start. rewrite Hrun. done.
  - intros Hrun Hnone. by rewrite start_live_loops, Hrun, Hnone.
  - intros Hrun Hone. by rewrite start_live_loops, Hrun.
Qed.

(** ** The worker after a failure *)


(** ** Retrying through the queue *)

(** First in, first out, one event at a time. *)
Lemma step_fifo ev w w' :
  step ev w = Some w' →
  dequeued_by ev w ++ items (_queue (queue_manager w')) =
    items (_queue (queue_manager w)) ++ enqueued_by ev w.
Proof.
  destruct ev as [task_id now nm f a k mr rd | | | | c now]; simpl.
  - intros [= <-]. simpl. by rewrite app_nil_r.
  - unfold run_put. destruct (ready_puts w); [done |]. by intros [= <-].
  - intros [= <-]. rewrite app_nil_r. unfold start.
    by destruct (running (queue_manager w)).
  - intros [= <-]. rewrite app_nil_r.
    by destruct (stop_fields w) as (_ & _ & _ & -> & _).
  - unfold resume.
    destruct (loop_tasks w !! c) as [[| | r | r d |] |]; try done.
    + intros [= <-]. by rewrite items_loop_head, app_nil_r.
    + destruct (items (_queue (queue_manager w))) as [| r rest] eqn:Hitems.
      { intros [= <-]. by rewrite items_loop_head, Hitems. }
      destruct (heap w !! r); [| done]. intros [= <-]. simpl. by rewrite app_nil_r.
    + destruct (heap w !! r); [| done].
      destruct (execute_end now q) as [task' [| |]]; intros [= <-].
      * by rewrite items_loop_head, items_after_execute, app_nil_r.
      * simpl. by rewrite app_nil_r.
      * simpl. by rewrite app_nil_r.
    + intros [= <-]. by rewrite items_loop_head, items_after_execute.
Qed.

Lemma run_fifo evs w w' :
  run evs w = Some w' →
  dequeues evs w ++ items (_queue (queue_manager w')) =
    items (_queue (queue_manager w)) ++ enqueues evs w.
Proof.
  revert w. induction evs as [| ev evs IH]; intros w; simpl.
  - intros [= <-]. by rewrite app_nil_r.
  - destruct (step ev w) as [w1 |] eqn:Hstep; [| done]. simpl. intros Hrun.
    rewrite <- (assoc_L (++)), (IH w1 Hrun), !(assoc_L (++)).
    by rewrite (step_fifo ev w w1 Hstep).
Qed.

Lemma queue_items_NoDup w : world_inv w → NoDup (items (_queue (queue_manager w))).
Proof.
  intros Hinv. pose proof (inv_nodup w Hinv) as Hnd. unfold queued in Hnd.
  by apply NoDup_app in Hnd as (_ & _ & ?).
Qed.

(** C4: when the attempt of the task being run fails with
    [retry_count + 1 < max_retries], the worker marks the task RETRYING with
    the count incremented and sleeps for the task's own [retry_delay],
    leaving the queue as it is; a sleeping worker that resumes appends the
    very same task object to the tail of the queue; the queue is first in,
    first out, so whatever was in it ahead of the task is taken out before
    the task is; and no run changes a task's identifier or [retry_delay]. *)
Theorem retry_goes_to_the_tail w :
  reachable w →
  (∀ c r t now e,
     loop_tasks w !! c = Some (AwaitFunc r) → heap w !! r = Some t →
     func t (args t) (kwargs t) 0%nat = Raises e →
     retry_count t + 1 < max_retries t →
     ∃ w1 t1, resume c now w = Some w1 ∧
       heap w1 !! r = Some t1 ∧ status t1 = RETRYING ∧
       retry_count t1 = retry_count t + 1 ∧ id t1 = id t ∧
       retry_delay t1 = retry_delay t ∧ error t1 = Some e ∧
       loop_tasks w1 !! c = Some (AwaitSleep r (retry_delay t)) ∧
       _queue (queue_manager w1) = _queue (queue_manager w)) ∧
  (∀ c r d now,
     loop_tasks w !! c = Some (AwaitSleep r d) →
     ∃ t w', heap w !! r = Some t ∧ status t = RETRYING ∧ d = retry_delay t ∧
       (r ∉ items (_queue (queue_manager w))) ∧
       resume c now w = Some w' ∧ heap w' = heap w ∧
       items (_queue (queue_manager w')) = items (_queue (queue_manager w)) ++ [r]) ∧
  (∀ evs w',
     run evs w = Some w' →
     dequeues evs w ++ items (_queue (queue_manager w')) =
       items (_queue (queue_manager w)) ++ enqueues evs w) ∧
  (∀ evs w' ahead r,
     run evs w = Some w' →
     items (_queue (queue_manager w)) = ahead ++ [r] →
     r ∈ dequeues evs w →
     ((ahead ++ [r]) `prefix_of` dequeues evs w)) ∧
  (∀ evs w' r t,
     run evs w = Some w' → heap w !! r = Some t →
     ∃ t', heap w' !! r = Some t' ∧ id t' = id t ∧ retry_delay t' = retry_delay t).
Proof.
  intros Hw. pose proof (reachable_inv w Hw) as Hinv. split_and!.
  - intros c r t now e Hc Hr Hf Hretry.
    unfold resume. rewrite Hc, Hr. unfold execute_end, call_func. rewrite Hf. simpl.
    case_decide; [| lia].
    match goal with |- ∃ w1 _, Some ?X = Some w1 ∧ _ => exists X end.
    exists (set_status RETRYING
              (set_retry_count (retry_count t + 1)
                 (set_error (Some e) (set_func (advance (func t)) t)))).
    simpl. split_and!; try done.
    + apply list_lookup_insert_eq. by eapply lookup_lt_Some.
    + apply list_lookup_insert_eq. by eapply lookup_lt_Some.
  - intros c r d now Hc.
    destruct (inv_sleep w Hinv c r d Hc) as (Hnq & t & Ht & Hst & Hd).
    exists t.
    exists (loop_head c (after_execute
              (set_manager (set_queue (queue_put r (_queue (queue_manager w)))
                              (queue_manager w)) w))).
    split_and!; try done.
    + intros Hin. apply Hnq. unfold queued. apply elem_of_app. by right.
    + unfold resume. by rewrite Hc.
    + by rewrite heap_loop_head, heap_after_execute.
    + by rewrite items_loop_head, items_after_execute.
  - intros evs w'. apply run_fifo.
  - intros evs w' ahead r Hrun Hitems Hin.
    pose proof (run_fifo evs w w' Hrun) as Hfifo. rewrite Hitems in Hfifo.
    pose proof (queue_items_NoDup w Hinv) as Hnd. rewrite Hitems in Hnd.
    apply NoDup_app in Hnd as (_ & Hdisj & _).
    assert (Hnot : r ∉ ahead).
    { intros Hr. apply (Hdisj r Hr). apply list_elem_of_singleton. done. }
    rewrite <- (assoc_L (++)) in Hfifo.
    apply app_eq_inv in Hfifo as [(k & Hd & Hk) | (k & Ha & _)].
    + destruct k as [| x k].
      * rewrite app_nil_r in Hd. congruence.
      * simpl in Hk. injection Hk as <- _. rewrite Hd.
        exists k. by rewrite <- (assoc_L (++)).
    + exfalso. apply Hnot. rewrite Ha. apply elem_of_app. by left.
  - intros evs w' r t Hrun Hr.
    destruct (run_task evs w w' r t Hinv Hrun Hr) as (t' & Hr' & Hid & _ & _ & _ & _ & Hrd & _).
    by exists t'.
Qed.

(** ** The theorems at work on the example worlds *)

Lemma world_running_reachable : reachable world_running.
Proof. exists (lone_task (always_fails "boom") 2 2). vm_compute. reflexivity. Qed.

Lemma world_sleeping_reachable : reachable world_sleeping.
Proof. exists (lone_task (always_fails "boom") 2 3). vm_compute. reflexivity. Qed.

Lemma retry_goes_to_the_tail_witness :
  (∃ w1 t1, resume 0 9 world_running = Some w1 ∧
     heap w1 !! 0%nat = Some t1 ∧ status t1 = RETRYING ∧
     retry_count t1 = retry_count (task_at 0 world_running) + 1 ∧
     id t1 = id (task_at 0 world_running) ∧
     retry_delay t1 = retry_delay (task_at 0 world_running) ∧
     error t1 = Some "boom" ∧
     loop_tasks w1 !! 0%nat = Some (AwaitSleep 0 (retry_delay (task_at 0 world_running))) ∧
     _queue (queue_manager w1) = _queue (queue_manager world_running)) ∧
  (∃ t w', heap world_sleeping !! 0%nat = Some t ∧ status t = RETRYING ∧
     20 = retry_delay t ∧
     (0%nat ∉ items (_queue (queue_manager world_sleeping))) ∧
     resume 0 9 world_sleeping = Some w' ∧ heap w' = heap world_sleeping ∧
     items (_queue (queue_manager w')) =
       items (_queue (queue_manager world_sleeping)) ++ [0%nat]).
Proof.
  split.
  - apply (proj1 (retry_goes_to_the_tail world_running world_running_reachable)
             0%nat 0%nat (task_at 0 world_running) 9 "boom");
      vm_compute; reflexivity.
  - apply (proj1 (proj2 (retry_goes_to_the_tail world_sleeping world_sleeping_reachable))
             0%nat 0%nat 20 9).
    vm_compute. reflexivity.
Defined.

Lemma progress_is_piecewise_witness :
  _calculate_progress (task_at 0 world_sleeping)
    = Return (progress_spec (task_at 0 world_sleeping)) ∧
  ∃ d, get_task_status "t1" world_sleeping = (Return (Some d), world_sleeping) ∧
       StatusDict.progress d = progress_spec (task_at 0 world_sleeping) ∧
       StatusDict.status d = TaskStatus_value (status (task_at 0 world_sleeping)) ∧
       (status (task_at 0 world_sleeping) = COMPLETED →
        StatusDict.progress d = float_lit 100) ∧
       (status (task_at 0 world_sleeping) = FAILED →
        StatusDict.progress d = float_lit 0) ∧
       (status (task_at 0 world_sleeping) = RETRYING →
        StatusDict.progress d =
          float_add (float_lit 50)
            (float_mul (float_quot (retry_count (task_at 0 world_sleeping))
                          (max_retries (task_at 0 world_sleeping))) (float_lit 30))) ∧
       (status (task_at 0 world_sleeping) = RUNNING →
        StatusDict.progress d = float_lit 50) ∧
       (status (task_at 0 world_sleeping) = PENDING →
        StatusDict.progress d = float_lit 0).
Proof.
  apply (progress_is_piecewise world_sleeping "t1" (task_at 0 world_sleeping)
           world_sleeping_reachable).
  vm_compute. reflexivity.
Defined.

Lemma status_follows_state_machine_witness :
  ∃ t, heap world_running !! 0%nat = Some t ∧ status t = RUNNING.
Proof.
  apply (proj1 (proj2 (proj2
           (status_follows_state_machine world_running world_running_reachable)))
           0%nat 0%nat).
  vm_compute. reflexivity.
Defined.


Lemma get_task_status_known_or_none_witness :
  get_task_status "no-such-id" world_sleeping = (Return None, world_sleeping) ∧
  get_task_status "t1" world_sleeping =
    (Return (Some (snapshot (task_at 0 world_sleeping))), world_sleeping) ∧
  snapshot (task_at 0 world_sleeping) =
    {| StatusDict.id := "t1"; StatusDict.name := "job";
       StatusDict.status := "retrying";
       StatusDict.retry_count := 1; StatusDict.max_retries := 2;
       StatusDict.progress := progress_spec (task_at 0 world_sleeping);
       StatusDict.created_at := Some 0; StatusDict.started_at := Some 2;
       StatusDict.completed_at := None; StatusDict.error := Some "boom" |} ∧
  submitted (lone_task (always_fails "boom") 2 3) "t1" = Some ("job", 2, 20, 0).
Proof.
  assert (Hrun : run (lone_task (always_fails "boom") 2 3) init = Some world_sleeping).
  { vm_compute. reflexivity. }
  split.
  - apply (proj1 (get_task_status_known_or_none _ _ "no-such-id" Hrun)).
    apply (bool_decide_unpack _). vm_compute. reflexivity.
  - destruct (proj2 (get_task_status_known_or_none _ _ "t1" Hrun))
      as (t & Hget & _ & Hst & _).
    + apply (bool_decide_unpack _). vm_compute. reflexivity.
    + assert (Ht : tasks_get "t1" world_sleeping = Some (task_at 0 world_sleeping)).
      { vm_compute. reflexivity. }
      rewrite Ht in Hget. injection Hget as <-.
      split; [exact Hst |]. split; reflexivity.
Defined.

Lemma start_is_idempotent_witness :
  start (start init) = start init ∧ live_loops (start (start init)) = 1%nat.
Proof.
  destruct (start_is_idempotent init) as (_ & H1 & _ & _ & _ & H2 & _).
  split; [exact H1 | apply H2; reflexivity].
Defined.

Lemma calculate_progress_total_witness :
  (status (task_at 0 world_sleeping) = RETRYING →
   1 ≤ retry_count (task_at 0 world_sleeping) < max_retries (task_at 0 world_sleeping) ∧
   max_retries (task_at 0 world_sleeping) ≠ 0) ∧
  (∃ p, _calculate_progress (task_at 0 world_sleeping) = Return p) ∧
  _calculate_progress (task_at 0 world_sleeping) ≠ Raise ZeroDivisionError.
Proof.
  apply (calculate_progress_total world_sleeping 0%nat (task_at 0 world_sleeping)
           world_sleeping_reachable).
  vm_compute. reflexivity.
Defined.

(** ** The status route *)

(** [GET /api/queue/status/{task_id}] answers 200 with the dict for an
    identifier that [add_task] has returned and 500, not 404, for any other:
    the handler's own [HTTPException(404)] is caught by its
    [except Exception]. *)
Lemma route_get_task_status_codes evs w task_id :
  run evs init = Some w →
  (task_id ∉ issued evs → route_get_task_status task_id w = (HttpError 500, w)) ∧
  (task_id ∈ issued evs →
   ∃ d, route_get_task_status task_id w = (Http200 d, w) ∧ StatusDict.id d = task_id).
Proof.
  intros Hrun. unfold route_get_task_status.
  destruct (get_task_status_cases evs w task_id Hrun) as [Hnone Hsome]. split.
  - intros Hnot. by rewrite (Hnone Hnot).
  - intros Hin. destruct (Hsome Hin) as (d & -> & Hid). by exists d.
Qed.

(** ** Stopping and restarting *)





(** [stop] twice is [stop] once, and on a manager that is not running and
    has no worker on record [stop] changes nothing: it is safe to call
    before any [start]. *)
Theorem stop_is_idempotent w :
  stop (stop w) = stop w ∧
  (running (queue_manager w) = false →
   _processing_task (queue_manager w) = None → stop w = w).
Proof.
  split.
  - unfold stop. simpl.
    destruct (_processing_task (queue_manager w)) as [c |] eqn:Hp; simpl.
    + rewrite Hp. unfold set_coroutine. simpl. by rewrite list_insert_insert_eq.
    + by rewrite Hp.
  - intros Hrun Hp. unfold stop. simpl. rewrite Hp.
    destruct w as [h [tb rn q p] lt rp]. simpl in *. by subst.
Qed.

Lemma stop_is_idempotent_witness : stop init = init.
Proof. apply (proj2 (stop_is_idempotent init)); reflexivity. Defined.



(** ** What ends the worker *)

Lemma loop_tasks_loop_head c w :
  ∃ pc, loop_tasks (loop_head c w) = <[c := pc]> (loop_tasks w).
Proof. unfold loop_head. destruct (running (queue_manager w)); by eexists. Qed.

Lemma resume_other c c' now w w' :
  resume c' now w = Some w' → c ≠ c' → loop_tasks w' !! c = loop_tasks w !! c.
Proof.
  intros Hstep Hne.
  assert (Hhead : ∀ x, loop_tasks x = loop_tasks w →
            loop_tasks (loop_head c' x) !! c = loop_tasks w !! c).
  { intros x <-. destruct (loop_tasks_loop_head c' x) as [pc ->].
    by apply list_lookup_insert_ne. }
  unfold resume in Hstep.
  destruct (loop_tasks w !! c') as [[| | r | r d |] |]; try done.
  - injection Hstep as <-. by apply Hhead.
  - destruct (items (_queue (queue_manager w))) as [| r rest].
    { injection Hstep as <-. by apply Hhead. }
    destruct (heap w !! r); [| done]. injection Hstep as <-.
    simpl. by apply list_lookup_insert_ne.
  - destruct (heap w !! r); [| done].
    destruct (execute_end now q) as [task' [| |]]; injection Hstep as <-.
    + apply Hhead. by destruct (after_execute_fields
                                  (set_heap (<[r:=task']> (heap w)) w)) as (_ & -> & _).
    + simpl. by apply list_lookup_insert_ne.
    + simpl. by apply list_lookup_insert_ne.
  - injection Hstep as <-. apply Hhead.
    match goal with |- loop_tasks (after_execute ?x) = _ =>
      by destruct (after_execute_fields x) as (_ & -> & _) end.
Qed.

Lemma execute_end_cancelled now t t' :
  execute_end now t = (t', Propagate) →
  func t (args t) (kwargs t) 0%nat = Cancelled.
Proof.
  unfold execute_end, call_func.
  destruct (func t (args t) (kwargs t) 0%nat); [done | | done].
  simpl. by case_decide.
Qed.

(** While the flag [running] is set, the worker ends only by [stop] or by a
    [CancelledError] out of the callable it runs: every other event leaves a
    live coroutine of [_process_queue] alive, its own iterations with
    returning or failing callables and its timeouts included; and in a
    reachable world the event loop can always resume it. *)
Theorem worker_ends_by_stop_or_cancellation w c pc :
  running (queue_manager w) = true →
  loop_tasks w !! c = Some pc → pc ≠ Finished →
  (reachable w → ∀ now, is_Some (resume c now w)) ∧
  (∀ ev w', ev ≠ Stop → step ev w = Some w' →
     (∃ pc', loop_tasks w' !! c = Some pc' ∧ pc' ≠ Finished) ∨
     (∃ now r t, ev = Resume c now ∧ pc = AwaitFunc r ∧ heap w !! r = Some t ∧
                 func t (args t) (kwargs t) 0%nat = Cancelled ∧
                 loop_tasks w' !! c = Some Finished)).
Proof.
  intros Hrun Hc Hlive.
  assert (Hidle : ∀ w0 pc0, running (queue_manager w0) = true →
            loop_tasks w0 !! c = Some pc0 →
            ∃ pc', loop_tasks (loop_head c w0) !! c = Some pc' ∧ pc' ≠ Finished).
  { intros w0 pc0 H1 H2. exists AwaitGet.
    split; [by apply (loop_head_lookup c pc0) | done]. }
  split.
  - intros Hw now. pose proof (reachable_inv w Hw) as Hinv.
    unfold resume. rewrite Hc.
    destruct pc as [| | r | r d |]; [by eexists | | | by eexists | done].
    + destruct (items (_queue (queue_manager w))) as [| r rest] eqn:Hitems;
        [by eexists |].
      assert (Hin : r ∈ queued w).
      { unfold queued. rewrite Hitems. apply elem_of_app. right.
        apply elem_of_cons. by left. }
      destruct (inv_queued w Hinv r Hin) as (t & -> & _). by eexists.
    + destruct (inv_func w Hinv c r Hc) as (t & -> & _).
      destruct (execute_end now t) as [task' [| |]]; by eexists.
  - intros ev w' Hne Hstep.
    destruct ev as [task_id now nm f a k mr rd | | | | c' now]; simpl in Hstep.
    + injection Hstep as <-. left. by exists pc.
    + unfold run_put in Hstep. destruct (ready_puts w); [done |].
      injection Hstep as <-. left. by exists pc.
    + injection Hstep as <-. unfold start. rewrite Hrun. left. by exists pc.
    + done.
    + destruct (decide (c = c')) as [<- | Hc'].
      2: { left. exists pc. by rewrite (resume_other c c' now w w' Hstep Hc'). }
      unfold resume in Hstep. rewrite Hc in Hstep.
      destruct pc as [| | r | r d |]; [| | | | done].
      * injection Hstep as <-. left. by eapply Hidle.
      * destruct (items (_queue (queue_manager w))) as [| r rest].
        { injection Hstep as <-. left. by eapply Hidle. }
        destruct (heap w !! r); [| done]. injection Hstep as <-.
        left. exists (AwaitFunc r). split; [| done].
        simpl. apply list_lookup_insert_eq. by eapply lookup_lt_Some.
      * destruct (heap w !! r) as [t |] eqn:Hr; [| done].
        destruct (execute_end now t) as [task' [| |]] eqn:Hend; injection Hstep as <-.
        -- left. apply (Hidle _ (AwaitFunc r)).
           ++ by destruct (after_execute_fields
                             (set_heap (<[r:=task']> (heap w)) w)) as (-> & _).
           ++ by destruct (after_execute_fields
                             (set_heap (<[r:=task']> (heap w)) w)) as (_ & -> & _).
        -- left. exists (AwaitSleep r (retry_delay task')). split; [| done].
           simpl. apply list_lookup_insert_eq. by eapply lookup_lt_Some.
        -- right. exists now, r, t. split_and!; [done | done | done | |].
           ++ by eapply execute_end_cancelled.
           ++ simpl. apply list_lookup_insert_eq. by eapply lookup_lt_Some.
      * injection Hstep as <-. left.
        match goal with |- context [loop_head c (after_execute ?x)] =>
          destruct (after_execute_fields x) as (E1 & E2 & _) end.
        apply (Hidle _ (AwaitSleep r d)); [by rewrite E1 | by rewrite E2].
Qed.

Lemma worker_ends_by_stop_or_cancellation_witness :
  is_Some (resume 0 9 world_sleeping) ∧
  ((∃ pc', loop_tasks world_orphaned !! 0%nat = Some pc' ∧ pc' ≠ Finished) ∨
   (∃ now r t, Resume 0 3 = Resume 0 now ∧ AwaitFunc 0 = AwaitFunc r ∧
               heap world_cancelling !! r = Some t ∧
               func t (args t) (kwargs t) 0%nat = Cancelled ∧
               loop_tasks world_orphaned !! 0%nat = Some Finished)).
Proof.
  split.
  - apply (proj1 (worker_ends_by_stop_or_cancellation world_sleeping 0 (AwaitSleep 0 20)
                    eq_refl eq_refl
                    (λ H : AwaitSleep 0 20 = Finished, eq_ind (AwaitSleep 0 20)
                       (λ x, match x with AwaitSleep _ _ => True | _ => False end)
                       I Finished H))
             world_sleeping_reachable).
  - apply (proj2 (worker_ends_by_stop_or_cancellation world_cancelling 0 (AwaitFunc 0)
                    eq_refl eq_refl
                    (λ H : AwaitFunc 0 = Finished, eq_ind (AwaitFunc 0)
                       (λ x, match x with AwaitFunc _ => True | _ => False end)
                       I Finished H))
             (Resume 0 3) world_orphaned).
    + discriminate.
    + vm_compute. reflexivity.
Defined.

Lemma resume_get_item w c r rest t now :
  loop_tasks w !! c = Some AwaitGet →
  items (_queue (queue_manager w)) = r :: rest →
  heap w !! r = Some t →
  ∃ w1, resume c now w = Some w1 ∧
        loop_tasks w1 !! c = Some (AwaitFunc r) ∧
        heap w1 !! r = Some (execute_begin now t) ∧
        items (_queue (queue_manager w1)) = rest ∧
        running (queue_manager w1) = running (queue_manager w).
Proof.
  intros Hc Hitems Hr. unfold resume. rewrite Hc, Hitems, Hr.
  eexists. split; [reflexivity |]. simpl. split_and!; [| | done | done].
  - apply list_lookup_insert_eq. by eapply lookup_lt_Some.
  - apply list_lookup_insert_eq. by eapply lookup_lt_Some.
Qed.

Lemma resume_last_iteration w c r t t' now :
  running (queue_manager w) = false →
  loop_tasks w !! c = Some (AwaitFunc r) → heap w !! r = Some t →
  execute_end now t = (t', BackToLoop) →
  ∃ w2, resume c now w = Some w2 ∧
        running (queue_manager w2) = false ∧
        loop_tasks w2 !! c = Some Finished ∧
        items (_queue (queue_manager w2)) = items (_queue (queue_manager w)) ∧
        heap w2 !! r = Some t'.
Proof.
  intros Hrun Hc Hr Hend. unfold resume. rewrite Hc, Hr, Hend.
  eexists. split; [reflexivity |].
  match goal with |- context [loop_head c (after_execute ?x)] =>
    destruct (after_execute_fields x) as (E1 & E2 & E3 & E4);
    pose proof (heap_after_execute x) as E5;
    generalize dependent (after_execute x) end.
  intros x E1 E2 E3 E4 E5. simpl in E1, E2, E3, E5.
  unfold loop_head. rewrite E1, Hrun. simpl. rewrite E2, E3, E5.
  split_and!; [by rewrite E1 | | done |].
  - apply list_lookup_insert_eq. by eapply lookup_lt_Some.
  - apply list_lookup_insert_eq. by eapply lookup_lt_Some.
Qed.

(** The [stop] whose cancellation [wait_for] swallows (CPython 3.11 and
    earlier): the worker in [wait_for] with an item at hand is not ended.
    With the flag cleared it takes the item, runs it, here to COMPLETED,
    calls [task_done] and leaves its loop by itself at the next test of
    [self.running]; where the cancellation is delivered, the task is left
    as it was and stays in the queue.  A [start] before the worker has left
    adds a second consumer. *)
Theorem swallowed_stop_runs_the_item w c r rest t v n1 n2 :
  loop_tasks w !! c = Some AwaitGet →
  items (_queue (queue_manager w)) = r :: rest →
  heap w !! r = Some t →
  func t (args t) (kwargs t) 0%nat = Returns v →
  (∃ w1 w2 t2,
     resume c n1 (stop_swallowed w) = Some w1 ∧
     loop_tasks w1 !! c = Some (AwaitFunc r) ∧
     resume c n2 w1 = Some w2 ∧
     running (queue_manager w2) = false ∧
     loop_tasks w2 !! c = Some Finished ∧
     items (_queue (queue_manager w2)) = rest ∧
     heap w2 !! r = Some t2 ∧
     status t2 = COMPLETED ∧ result t2 = v ∧
     started_at t2 = Some n1 ∧ completed_at t2 = Some n2) ∧
  (_processing_task (queue_manager w) = Some c →
   loop_tasks (stop w) !! c = Some Finished ∧
   heap (stop w) !! r = Some t ∧
   items (_queue (queue_manager (stop w))) = r :: rest) ∧
  live_loops (start (stop_swallowed w)) = S (live_loops w).
Proof.
  intros Hc Hitems Hr Hf.
  split_and!.
  - destruct (resume_get_item (stop_swallowed w) c r rest t n1 Hc Hitems Hr)
      as (w1 & Hs1 & Hc1 & Hr1 & Hi1 & Hrun1).
    assert (Hend : execute_end n2 (execute_begin n1 t) =
                   (set_completed_at (Some n2)
                      (set_status COMPLETED
                         (set_result v
                            (set_func (advance (func t)) (execute_begin n1 t)))),
                    BackToLoop)).
    { unfold execute_end, call_func. simpl. by rewrite Hf. }
    destruct (resume_last_iteration w1 c r _ _ n2 Hrun1 Hc1 Hr1 Hend)
      as (w2 & Hs2 & Hrun2 & Hc2 & Hi2 & Hr2).
    exists w1, w2. eexists.
    split_and!; [done | done | done | done | done | by rewrite Hi2 | exact Hr2
                 | done | done | done | done].
  - intros Hp. destruct (stop_fields w) as (Hh & _ & _ & Hq & _).
    split_and!; [| by rewrite Hh | by rewrite Hq].
    unfold stop. simpl. rewrite Hp. simpl.
    apply list_lookup_insert_eq. by eapply lookup_lt_Some.
  - rewrite start_live_loops. done.
Qed.

Lemma swallowed_stop_runs_the_item_witness :
  (∃ w1 w2 t2,
     resume 0 5 (stop_swallowed world_in_flight) = Some w1 ∧
     loop_tasks w1 !! 0%nat = Some (AwaitFunc 0) ∧
     resume 0 6 w1 = Some w2 ∧
     running (queue_manager w2) = false ∧
     loop_tasks w2 !! 0%nat = Some Finished ∧
     items (_queue (queue_manager w2)) = [] ∧
     heap w2 !! 0%nat = Some t2 ∧
     status t2 = COMPLETED ∧ result t2 = PyInt 7 ∧
     started_at t2 = Some 5 ∧ completed_at t2 = Some 6) ∧
  (_processing_task (queue_manager world_in_flight) = Some 0%nat →
   loop_tasks (stop world_in_flight) !! 0%nat = Some Finished ∧
   heap (stop world_in_flight) !! 0%nat = Some (task_at 0 world_in_flight) ∧
   items (_queue (queue_manager (stop world_in_flight))) = [0%nat]) ∧
  live_loops (start (stop_swallowed world_in_flight)) = S (live_loops world_in_flight).
Proof.
  apply (swallowed_stop_runs_the_item world_in_flight 0 0 [] (task_at 0 world_in_flight)
           (PyInt 7) 5 6); vm_compute; reflexivity.
Defined.

(** ** The queue's bookkeeping *)

(** [task_done] never raises in [_process_queue]: the counter of unfinished
    items is at least the length of the queue, and one more while the worker
    holds a task, so the worker's [task_done] finds it positive and the
    [except Exception] branch of the loop is never taken for it. *)
Theorem task_done_never_raises w :
  reachable w →
  Z.of_nat (length (items (_queue (queue_manager w))))
    ≤ unfinished_tasks (_queue (queue_manager w)) ∧
  (∀ c pc, loop_tasks w !! c = Some pc → holding pc = 1 →
     ∃ q, queue_task_done (_queue (queue_manager w)) = Return q ∧
          unfinished_tasks q = unfinished_tasks (_queue (queue_manager w)) - 1 ∧
          Z.of_nat (length (items q)) ≤ unfinished_tasks q).
Proof.
  intros Hw. pose proof (reachable_inv w Hw) as Hinv. split.
  - apply (inv_unfinished w Hinv).
  - intros c pc Hc Hhold. pose proof (inv_holding w Hinv c pc Hc) as H.
    rewrite Hhold in H. unfold queue_task_done. case_decide; [lia |].
    eexists. split; [reflexivity |]. simpl. lia.
Qed.

Lemma task_done_never_raises_witness :
  ∃ q, queue_task_done (_queue (queue_manager world_running)) = Return q ∧
       unfinished_tasks q = unfinished_tasks (_queue (queue_manager world_running)) - 1 ∧
       Z.of_nat (length (items q)) ≤ unfinished_tasks q.
Proof.
  apply (proj2 (task_done_never_raises world_running world_running_reachable)
           0%nat (AwaitFunc 0)); reflexivity.
Defined.

Lemma held_not_queued w c pc r :
  world_inv w → loop_tasks w !! c = Some pc →
  pc = AwaitFunc r ∨ (∃ d, pc = AwaitSleep r d) → r ∉ queued w.
Proof.
  intros Hinv Hc [-> | [d ->]].
  - intros Hin. destruct (inv_func w Hinv c r Hc) as (t & Ht & Hst).
    destruct (inv_queued w Hinv r Hin) as (t' & Ht' & Hst').
    assert (t' = t) as -> by congruence. destruct Hst'; congruence.
  - by destruct (inv_sleep w Hinv c r d Hc) as [Hnq _].
Qed.

(** No task waits twice: the references whose [put] is pending and those in
    the queue are all different, each is a PENDING or RETRYING task, and the
    task the worker holds is not among them. *)
Theorem queue_holds_each_task_once w :
  reachable w →
  NoDup (ready_puts w ++ items (_queue (queue_manager w))) ∧
  (∀ r, r ∈ ready_puts w ++ items (_queue (queue_manager w)) →
     ∃ t, heap w !! r = Some t ∧ (status t = PENDING ∨ status t = RETRYING)) ∧
  (∀ c pc r, loop_tasks w !! c = Some pc →
     pc = AwaitFunc r ∨ (∃ d, pc = AwaitSleep r d) →
     r ∉ ready_puts w ++ items (_queue (queue_manager w))).
Proof.
  intros Hw. pose proof (reachable_inv w Hw) as Hinv. split_and!.
  - apply (inv_nodup w Hinv).
  - apply (inv_queued w Hinv).
  - intros c pc r Hc Hpc. by apply (held_not_queued w c pc r).
Qed.

Lemma queue_holds_each_task_once_witness :
  0%nat ∉ ready_puts world_sleeping ++ items (_queue (queue_manager world_sleeping)).
Proof.
  apply (proj2 (proj2 (queue_holds_each_task_once world_sleeping world_sleeping_reachable))
           0%nat (AwaitSleep 0 20) 0%nat); [reflexivity |].
  right. by exists 20.
Defined.

(** ** The retry sleep holds the worker *)



(** ** Tasks the worker has let go of *)







(** ** Where task objects come from *)

Lemma step_heap_length ev w w' :
  step ev w = Some w' →
  length (heap w') =
    match ev with
    | AddTask _ _ _ _ _ _ _ _ => S (length (heap w))
    | _ => length (heap w)
    end.
Proof.
  destruct ev as [task_id now nm f a k mr rd | | | | c now]; simpl.
  - intros [= <-]. simpl. rewrite length_app. simpl. lia.
  - unfold run_put. destruct (ready_puts w); [done |]. by intros [= <-].
  - intros [= <-]. unfold start. by destruct (running (queue_manager w)).
  - intros [= <-]. by destruct (stop_fields w) as (-> & _).
  - unfold resume.
    destruct (loop_tasks w !! c) as [[| | r | r d |] |]; try done.
    + intros [= <-]. by rewrite heap_loop_head.
    + destruct (items (_queue (queue_manager w))).
      { intros [= <-]. by rewrite heap_loop_head. }
      destruct (heap w !! n); [| done]. intros [= <-]. simpl. apply length_insert.
    + destruct (heap w !! r); [| done].
      destruct (execute_end now q) as [task' [| |]]; intros [= <-].
      * rewrite heap_loop_head, heap_after_execute. simpl. apply length_insert.
      * simpl. apply length_insert.
      * simpl. apply length_insert.
    + intros [= <-]. by rewrite heap_loop_head, heap_after_execute.
Qed.

(** A task object of the world after a step was there before, one move of
    the worker earlier at most, or has just been made by [add_task]. *)
Lemma step_task_back ev w w' r t' :
  world_inv w → step ev w = Some w' → heap w' !! r = Some t' →
  (∃ t, heap w !! r = Some t ∧ task_step t t') ∨
  (∃ task_id now nm f a k mr rd, t' = new_QueueTask task_id nm f a k mr rd now).
Proof.
  intros Hinv Hstep Hr'.
  destruct (heap w !! r) as [t |] eqn:Hr.
  - left. destruct (step_task ev w w' r t Hinv Hstep Hr) as (t1 & Hr1 & Hts).
    exists t. split; [done |]. congruence.
  - right. pose proof (step_heap_length ev w w' Hstep) as Hlen.
    apply lookup_ge_None in Hr. apply lookup_lt_Some in Hr' as Hlt.
    destruct ev as [task_id now nm f a k mr rd | | | |]; try lia.
    injection Hstep as <-. simpl in Hr'.
    apply lookup_snoc_Some in Hr' as [[? _] | [_ <-]]; [lia |].
    by repeat eexists.
Qed.

(** A property of task objects that holds of fresh ones and that the
    worker's two moves keep holds of every task object of every reachable
    world. *)
Lemma reachable_task_ind (P : QueueTask → Prop) :
  (∀ task_id nm f a k mr rd now, P (new_QueueTask task_id nm f a k mr rd now)) →
  (∀ t t', task_ok t → P t → task_step t t' → P t') →
  ∀ w r t, reachable w → heap w !! r = Some t → P t.
Proof.
  intros Hnew Hkeep w r t [evs Hrun].
  assert (Hgen : ∀ evs w0, world_inv w0 →
            (∀ r t, heap w0 !! r = Some t → P t) →
            run evs w0 = Some w → ∀ r t, heap w !! r = Some t → P t).
  { clear evs Hrun r t. intros evs.
    induction evs as [| ev evs IH]; intros w0 Hinv HP; simpl.
    - by intros [= <-].
    - destruct (step ev w0) as [w1 |] eqn:Hstep; [| done]. simpl.
      apply IH; [by eapply step_inv |].
      intros r t Hr.
      destruct (step_task_back ev w0 w1 r t Hinv Hstep Hr)
        as [(t0 & Hr0 & Hts) | (? & ? & ? & ? & ? & ? & ? & ? & ->)]; [| apply Hnew].
      eapply Hkeep; [by eapply inv_task | by eapply HP | done]. }
  apply (Hgen evs init); [apply init_inv | | done].
  intros r0 t0 H0. by destruct r0.
Qed.

(** ** Timestamps *)

(** Every task object has [created_at]; it has [started_at] exactly when it
    is no longer PENDING, and [completed_at] exactly when it is COMPLETED or
    FAILED. *)
Theorem timestamps_follow_status w r t :
  reachable w → heap w !! r = Some t →
  is_Some (created_at t) ∧
  (started_at t = None ↔ status t = PENDING) ∧
  (is_Some (completed_at t) ↔ status t = COMPLETED ∨ status t = FAILED).
Proof.
  apply (reachable_task_ind stamps_ok).
  - intros. unfold stamps_ok, terminal. simpl. split_and!; [by eexists | done |].
    split; [by intros [? [=]] | by intros [[=] | [=]]].
  - intros t0 t' _ (Hc & Hs & Hd) Hts. unfold stamps_ok, terminal in *.
    destruct Hts as [| now Hst | now Hst]; [done | |].
    + simpl. split_and!; [done | split; done |].
      rewrite Hd. destruct Hst as [-> | ->];
        split; intros [[=] | [=]].
    + unfold execute_end, call_func.
      assert (Hstarted : started_at t0 ≠ None).
      { intros E. apply Hs in E. congruence. }
      assert (Hnotdone : ¬ is_Some (completed_at t0)).
      { rewrite Hd, Hst. intros [[=] | [=]]. }
      destruct (func t0 (args t0) (kwargs t0) 0%nat); simpl.
      * split_and!; [done | split; [done | intros [=]] |].
        split; [by left | by eexists].
      * case_decide; simpl.
        -- split_and!; [done | split; [done | intros [=]] |].
           split; [done | intros [[=] | [=]]].
        -- split_and!; [done | split; [done | intros [=]] |].
           split; [by right | by eexists].
      * split_and!; [done | split; [done | rewrite Hst; intros [=]] |].
        split; [done | rewrite Hst; intros [[=] | [=]]].
Qed.

Lemma timestamps_follow_status_witness :
  is_Some (completed_at (task_at 0 world_failed)) ↔
  status (task_at 0 world_failed) = COMPLETED ∨ status (task_at 0 world_failed) = FAILED.
Proof.
  apply (timestamps_follow_status world_failed 0 (task_at 0 world_failed)).
  - exists (lone_task (always_fails "boom") 2 6). vm_compute. reflexivity.
  - vm_compute. reflexivity.
Defined.

(** ** The two ways an attempt ends for good *)






(** ** A task that succeeds at once *)

Lemma first_try_step v t t' : first_try v t → task_step t t' → first_try v t'.
Proof.
  intros (Hrc & Herr & Hcases) [| now Hst | now Hst]; [done | |].
  - split_and!; [done | done |].
    destruct Hcases as [[_ Hf] | [Hc _]]; [left; simpl; eauto |].
    destruct Hst; congruence.
  - unfold execute_end, call_func.
    destruct Hcases as [[_ Hf] | [Hc _]]; [| congruence].
    rewrite Hf. simpl. split_and!; [done | done |]. right. done.
Qed.

Lemma first_try_run v evs w w' r t :
  world_inv w → run evs w = Some w' → heap w !! r = Some t → first_try v t →
  ∃ t', heap w' !! r = Some t' ∧ first_try v t'.
Proof.
  revert w t. induction evs as [| ev evs IH]; intros w t Hinv Hrun Hr Hft; simpl in Hrun.
  - injection Hrun as <-. by exists t.
  - destruct (step ev w) as [w1 |] eqn:Hstep; [| done]. simpl in Hrun.
    destruct (step_task ev w w1 r t Hinv Hstep Hr) as (t1 & Hr1 & Hts).
    apply (IH w1 t1); eauto using step_inv, first_try_step.
Qed.

(** A task whose callable returns [v] at its first invocation, whatever its
    [max_retries], is only ever PENDING, RUNNING or COMPLETED, keeps
    [retry_count = 0] and no [error], and once COMPLETED holds [v] and
    reports progress 100. *)
Theorem first_attempt_success w0 task_id now nm f a k mr rd v evs w :
  reachable w0 →
  f a k 0%nat = Returns v →
  run evs (add_task task_id now nm f a k mr rd w0).2 = Some w →
  ∃ t, heap w !! length (heap w0) = Some t ∧
       retry_count t = 0 ∧ error t = None ∧
       (status t = PENDING ∨ status t = RUNNING ∨ status t = COMPLETED) ∧
       (status t = COMPLETED →
        result t = v ∧ _calculate_progress t = Return (float_lit 100)).
Proof.
  intros Hw0 Hf Hrun.
  pose proof (add_task_inv task_id now nm f a k mr rd w0 (reachable_inv w0 Hw0)) as Hinv1.
  assert (Hr1 : heap (add_task task_id now nm f a k mr rd w0).2 !! length (heap w0)
                = Some (new_QueueTask task_id nm f a k mr rd now)).
  { simpl. by rewrite lookup_app_r, Nat.sub_diag by lia. }
  destruct (first_try_run v evs _ w _ _ Hinv1 Hrun Hr1) as (t & Hr & Hrc & Herr & Hcases).
  { split_and!; [done | done |]. left. simpl. eauto. }
  exists t. split_and!; try done.
  - destruct Hcases as [[[? | ?] _] | [? _]]; eauto.
  - intros Hst. destruct Hcases as [[[? | ?] _] | [_ Hres]]; try congruence.
    split; [done |]. unfold _calculate_progress. by rewrite Hst.
Qed.

Lemma first_attempt_success_witness :
  ∃ t, heap world_completed !! 0%nat = Some t ∧
       retry_count t = 0 ∧ error t = None ∧
       (status t = PENDING ∨ status t = RUNNING ∨ status t = COMPLETED) ∧
       (status t = COMPLETED →
        result t = PyInt 7 ∧ _calculate_progress t = Return (float_lit 100)).
Proof.
  apply (first_attempt_success init "t1" 0 "job" (always_returns (PyInt 7)) [] [] 0 20
           (PyInt 7) (skipn 1 (lone_task (always_returns (PyInt 7)) 0 3)) world_completed).
  - exists []. reflexivity.
  - reflexivity.
  - vm_compute. reflexivity.
Defined.

(** ** Submitting and querying *)

(** [add_task] returns the identifier it was given by [uuid4], and a status
    query for it right afterwards, in any world and even when the identifier
    was in the table already, answers with the new task: pending, no retry,
    progress 0, no error, not started. *)
Theorem submit_then_query task_id now nm f a k mr rd w :
  (add_task task_id now nm f a k mr rd w).1 = task_id ∧
  get_task_status task_id (add_task task_id now nm f a k mr rd w).2 =
    (Return (Some
       {| StatusDict.id := task_id;
          StatusDict.name := nm;
          StatusDict.status := "pending";
          StatusDict.retry_count := 0;
          StatusDict.max_retries := mr;
          StatusDict.progress := float_lit 0;
          StatusDict.created_at := Some now;
          StatusDict.started_at := None;
          StatusDict.completed_at := None;
          StatusDict.error := None |}),
     (add_task task_id now nm f a k mr rd w).2).
Proof.
  split; [done |].
  unfold get_task_status, tasks_get. simpl.
  rewrite lookup_insert_eq. simpl.
  by rewrite lookup_app_r, Nat.sub_diag by lia.
Qed.

(** [add_task] leaves every other identifier's answer as it was, and with
    it the task objects and the queue; only the pending puts gain the new
    task, at their end. *)
Theorem add_task_leaves_the_rest task_id now nm f a k mr rd w other :
  reachable w → other ≠ task_id →
  (get_task_status other (add_task task_id now nm f a k mr rd w).2).1
    = (get_task_status other w).1 ∧
  (∀ r t, heap w !! r = Some t →
     heap (add_task task_id now nm f a k mr rd w).2 !! r = Some t) ∧
  _queue (queue_manager (add_task task_id now nm f a k mr rd w).2)
    = _queue (queue_manager w) ∧
  ready_puts (add_task task_id now nm f a k mr rd w).2
    = ready_puts w ++ [length (heap w)].
Proof.
  intros Hw Hne. pose proof (reachable_inv w Hw) as Hinv. split_and!; try done.
  - assert (Hget : tasks_get other (add_task task_id now nm f a k mr rd w).2
                   = tasks_get other w).
    { unfold tasks_get. simpl. rewrite lookup_insert_ne by done.
      destruct (tasks (queue_manager w) !! other) as [r |] eqn:Hk; [| done]. simpl.
      destruct (inv_table w Hinv other r Hk) as [t Ht].
      rewrite Ht. by apply lookup_app_l_Some. }
    unfold get_task_status. rewrite Hget.
    destruct (tasks_get other w); [| done].
    by destruct (_calculate_progress q).
  - intros r t. apply lookup_app_l_Some.
Qed.

Lemma add_task_leaves_the_rest_witness :
  (get_task_status "t1"
     (add_task "t2" 7 "next" (always_fails "x") [] [] 3 20 world_sleeping).2).1
    = (get_task_status "t1" world_sleeping).1.
Proof.
  apply (add_task_leaves_the_rest "t2" 7 "next" (always_fails "x") [] [] 3 20
           world_sleeping "t1" world_sleeping_reachable).
  discriminate.
Defined.

Lemma get_task_status_in_table w task_id r :
  reachable w → tasks (queue_manager w) !! task_id = Some r →
  ∃ d, get_task_status task_id w = (Return (Some d), w) ∧ StatusDict.id d = task_id.
Proof.
  intros Hw Hk.
  destruct (inv_table w (reachable_inv w Hw) _ _ Hk) as [t Ht].
  assert (Hget : tasks_get task_id w = Some t) by (unfold tasks_get; by rewrite Hk).
  unfold get_task_status. rewrite Hget, (reachable_progress w r t Hw Ht).
  eexists. split; [reflexivity |]. simpl. by eapply reachable_table_ok.
Qed.

(** Nothing is ever evicted: an identifier that the table knows stays known
    through every run, and a status query for it keeps answering with a
    dict. *)
Theorem known_stays_known w evs w' task_id :
  reachable w → run evs w = Some w' →
  is_Some (tasks (queue_manager w) !! task_id) →
  is_Some (tasks (queue_manager w') !! task_id) ∧
  ∃ d, get_task_status task_id w' = (Return (Some d), w') ∧
       StatusDict.id d = task_id.
Proof.
  intros Hw Hrun Hk.
  assert (Hk' : is_Some (tasks (queue_manager w') !! task_id)).
  { apply (run_table evs w w' task_id Hrun). by left. }
  split; [done |]. destruct Hk' as [r Hr].
  apply (get_task_status_in_table w' task_id r); [| done].
  by eapply reachable_run.
Qed.

Lemma known_stays_known_witness :
  is_Some (tasks (queue_manager world_failed) !! "t1").
Proof.
  apply (known_stays_known world_sleeping
           [Resume 0 4; Resume 0 5; Resume 0 6] world_failed "t1"
           world_sleeping_reachable).
  - vm_compute. reflexivity.
  - vm_compute. by eexists.
Defined.

(** ** All tasks at once *)

(** Given the keys of the table, [get_all_tasks] never raises in a reachable
    world and answers with one dict per key, in the order of the keys, each
    the dict of that identifier and none of them [None]; the route wraps
    the list as it is. *)
Theorem get_all_tasks_lists_every_key w keys :
  reachable w →
  (∀ task_id, task_id ∈ keys → is_Some (tasks (queue_manager w) !! task_id)) →
  ∃ ds, get_all_tasks keys w = (Return ds, w) ∧
        route_get_all_tasks_status keys w = (ReplyTasks ds, w) ∧
        Forall2 (λ task_id d, ∃ s, d = Some s ∧ StatusDict.id s = task_id) keys ds.
Proof.
  intros Hw Hkeys.
  assert (Hall : ∃ ds, get_all_tasks keys w = (Return ds, w) ∧
            Forall2 (λ task_id d, ∃ s, d = Some s ∧ StatusDict.id s = task_id) keys ds).
  { induction keys as [| key keys IH]; simpl.
    - exists []. split; [done | constructor].
    - destruct (Hkeys key) as [r Hr]; [apply elem_of_cons; by left |].
      destruct (get_task_status_in_table w key r Hw Hr) as (d & -> & Hid).
      destruct IH as (ds & -> & Hds).
      { intros k Hk. apply Hkeys. apply elem_of_cons. by right. }
      exists (Some d :: ds). split; [done |]. constructor; [by exists d | done]. }
  destruct Hall as (ds & Hget & Hds). exists ds. split_and!; [done | | done].
  unfold route_get_all_tasks_status. by rewrite Hget.
Qed.

Lemma get_all_tasks_lists_every_key_witness :
  ∃ ds, get_all_tasks ["t1"] world_sleeping = (Return ds, world_sleeping) ∧
        route_get_all_tasks_status ["t1"] world_sleeping = (ReplyTasks ds, world_sleeping) ∧
        Forall2 (λ task_id d, ∃ s, d = Some s ∧ StatusDict.id s = task_id) ["t1"] ds.
Proof.
  apply (get_all_tasks_lists_every_key world_sleeping ["t1"] world_sleeping_reachable).
  intros task_id Hin. apply list_elem_of_singleton in Hin. subst task_id.
  vm_compute. by eexists.
Defined.

Lemma route_get_task_status_codes_witness :
  route_get_task_status "no-such-id" world_sleeping = (HttpError 500, world_sleeping) ∧
  ∃ d, route_get_task_status "t1" world_sleeping = (Http200 d, world_sleeping) ∧
       StatusDict.id d = "t1".
Proof.
  assert (Hrun : run (lone_task (always_fails "boom") 2 3) init = Some world_sleeping).
  { vm_compute. reflexivity. }
  split.
  - apply (proj1 (route_get_task_status_codes _ _ "no-such-id" Hrun)).
    apply (bool_decide_unpack _). vm_compute. reflexivity.
  - apply (proj2 (route_get_task_status_codes _ _ "t1" Hrun)).
    apply (bool_decide_unpack _). vm_compute. reflexivity.
Defined.
